(** * bitcoin_gains.py: a shallow embedding and its specification

    The program reads exchange histories, removes internal transfers and
    folds the remaining transactions through a lot-based cost-basis ledger.
    This file embeds the accounting core of [bitcoin_gains.py] (Python 2)
    and proves or refutes the properties stated about it.

    Modelling conventions.
    - A [decimal.Decimal] is modelled by its numerical value, a rational
      ([Q]); Python's [==], [<] and truth value of a Decimal are numerical,
      so they are [Qeq], [Qlt] and "not zero".  The default context has 28
      significant digits and rounds half-even: quotients and products are
      rounded to that precision ([ctx_round]) and [quantize] refuses a
      result longer than it.  Sums and differences are taken exact (the
      amounts added here are far shorter than 28 digits).  NaN and the
      infinities are outside the model.
    - An exception is a value of [Exception]; a computation that may raise
      returns a [Result].
    - [heapq] is the standard library's binary heap on a list; its sift
      loops are transcribed from CPython 2.7. *)

From Stdlib Require Import ZArith QArith Qround Qabs String Ascii Lia.
From Stdlib Require Import DecimalString Lqa.
From Stdlib Require Import DecimalZ DecimalPos Qpower.
From Stdlib Require OrderedTypeEx.
From stdpp Require Import list strings gmap.
From Equations Require Import Equations.

(** ** Exceptions and results *)

Inductive Exception : Type :=
| TypeError
| IndexError
| ValueError
| UnboundLocalError
| AttributeError
| ZeroDivisionError
| InvalidOperation
| AssertionError
| RuntimeError.

Inductive Result (A : Type) : Type :=
| Ok (a : A)
| Raise (e : Exception).
Arguments Ok {A} a.
Arguments Raise {A} e.

Definition bind {A B} (r : Result A) (k : A -> Result B) : Result B :=
  match r with
  | Ok a => k a
  | Raise e => Raise e
  end.

Notation "'let*' x ':=' r 'in' k" := (bind r (fun x => k))
  (at level 10, x pattern, r at level 100, k at level 200).

Definition raises {A} (r : Result A) : Prop :=
  match r with Ok _ => False | Raise _ => True end.

(** ** Decimals *)

Module Dec.

Definition Decimal := Q.
Bind Scope Q_scope with Decimal.

(** The default context: [prec = 28], [rounding = ROUND_HALF_EVEN]. *)
Definition prec : Z := 28.

Definition pow10 (e : Z) : Q := Qpower (10 # 1) e.

(** The integer nearest to [q], a tie going to the even neighbour. *)
Definition round_half_even (q : Q) : Z :=
  let f := Qfloor q in
  match Qcompare (q - inject_Z f) (1 # 2) with
  | Lt => f
  | Gt => (f + 1)%Z
  | Eq => if Z.even f then f else (f + 1)%Z
  end.

(** Number of decimal digits of a positive integer. *)
Definition ndigits (p : positive) : Z :=
  Z.of_nat (Decimal.nb_digits (Pos.to_uint p)).

(** [adjusted x] is the exponent of the leading digit of [x <> 0]:
    [10^adjusted x <= |x| < 10^(adjusted x + 1)]. *)
Definition adjusted (x : Q) : Z :=
  match Qnum x with
  | Z0 => 0
  | Zpos n | Zneg n =>
      let k := (ndigits n - ndigits (Qden x))%Z in
      if Qle_bool (pow10 k) (Qabs x) then k else (k - 1)%Z
  end.

(** Rounding of an exact result to the context precision. *)
Definition ctx_round (x : Q) : Q :=
  if Qeq_bool x 0 then 0
  else
    let e := (adjusted x - (prec - 1))%Z in
    Qred (inject_Z (round_half_even (x / pow10 e)) * pow10 e).

Definition add (x y : Decimal) : Decimal := Qred (x + y).
Definition sub (x y : Decimal) : Decimal := Qred (x - y).
Definition neg (x : Decimal) : Decimal := Qred (- x).
Definition mul (x y : Decimal) : Decimal := ctx_round (x * y).

(** [x / y]: [x / 0] raises DivisionByZero (a ZeroDivisionError) and
    [0 / 0] raises InvalidOperation. *)
Definition div (x y : Decimal) : Result Decimal :=
  if Qeq_bool y 0 then
    if Qeq_bool x 0 then Raise InvalidOperation else Raise ZeroDivisionError
  else Ok (ctx_round (x / y)).

(** [x.quantize(Decimal('0.1') ** digits)]: the multiple of [10^-digits]
    nearest to [x] under the context's rounding; InvalidOperation when the
    coefficient of the result would be longer than the precision. *)
Definition quantize (x : Decimal) (digits : Z) : Result Decimal :=
  let c := round_half_even (x * pow10 digits) in
  if (10 ^ prec <=? Z.abs c)%Z then Raise InvalidOperation
  else Ok (Qred (inject_Z c * pow10 (- digits))).

(** Truth value of a Decimal: nonzero. *)
Definition truthy (x : Decimal) : bool := negb (Qeq_bool x 0).

Definition ltb (x y : Decimal) : bool := negb (Qle_bool y x).
Definition leb (x y : Decimal) : bool := Qle_bool x y.
Definition eqb (x y : Decimal) : bool := Qeq_bool x y.

End Dec.

Abbreviation Decimal := Dec.Decimal.
Bind Scope Q_scope with Dec.Decimal.

(** [roundd(x, digits)] *)
Definition roundd (x : Decimal) (digits : Z) : Result Decimal :=
  Dec.quantize x digits.

(** [decimal_or_none(o)], on an argument that is already a number. *)
Definition decimal_or_none (o : option Decimal) : option Decimal :=
  match o with
  | None => None
  | Some d => Some d
  end.

(** Truth value of an attribute that is [None] or a Decimal. *)
Definition truthy_opt (o : option Decimal) : bool :=
  match o with
  | None => false
  | Some d => Dec.truthy d
  end.

(** ** Python's [cmp]

    [cmp] returns a negative, zero or positive integer; [a or b] on two
    such results is [b] when [a] is zero and [a] otherwise. *)

Definition cmp_or (a b : comparison) : comparison :=
  match a with
  | Eq => b
  | _ => a
  end.

Definition cmp_Z : Z -> Z -> comparison := Z.compare.
Definition cmp_str : string -> string -> comparison := String.compare.

(** ** Time stamps

    A [time.struct_time] is a 9-tuple of integers and compares as a tuple,
    field after field. *)

Record struct_time : Type := mk_struct_time {
  tm_year : Z;
  tm_mon : Z;
  tm_mday : Z;
  tm_hour : Z;
  tm_min : Z;
  tm_sec : Z;
  tm_wday : Z;
  tm_yday : Z;
  tm_isdst : Z
}.

Definition cmp_time (a b : struct_time) : comparison :=
  cmp_or (cmp_Z (tm_year a) (tm_year b))
  (cmp_or (cmp_Z (tm_mon a) (tm_mon b))
  (cmp_or (cmp_Z (tm_mday a) (tm_mday b))
  (cmp_or (cmp_Z (tm_hour a) (tm_hour b))
  (cmp_or (cmp_Z (tm_min a) (tm_min b))
  (cmp_or (cmp_Z (tm_sec a) (tm_sec b))
  (cmp_or (cmp_Z (tm_wday a) (tm_wday b))
  (cmp_or (cmp_Z (tm_yday a) (tm_yday b))
          (cmp_Z (tm_isdst a) (tm_isdst b))))))))).

(** ** Transactions *)

Inductive TxType : Type := deposit | withdraw | trade | fee.

Definition TxType_eqb (a b : TxType) : bool :=
  match a, b with
  | deposit, deposit | withdraw, withdraw | trade, trade | fee, fee => true
  | _, _ => false
  end.

(** The parsers of [main], in the order in which they are tried. *)
Inductive ParserKind : Type :=
| BitstampParser
| MtGoxParser
| BitcoindParser
| CoinbaseParser.

Record Transaction : Type := mkTransaction {
  timestamp : struct_time;
  type : TxType;
  btc : option Decimal;
  usd : option Decimal;
  price : option Decimal;
  fee_usd : option Decimal;
  fee_btc : option Decimal;
  info : option string;
  id : string;
  parser : option ParserKind  (* set by [main] after construction *)
}.

(** [unique()] on the global counter [_unique]. *)
Definition string_of_Z (n : Z) : string :=
  DecimalString.NilZero.string_of_int (Z.to_int n).

Definition unique (_unique : Z) : string * Z :=
  let n := (_unique + 1)%Z in
  (String.append "unique:" (string_of_Z n), n).

(** [Transaction.__init__]; the counter of [unique] is threaded through. *)
Definition Transaction_init (_unique : Z)
    (timestamp : struct_time) (type : TxType)
    (btc usd price fee_usd fee_btc : option Decimal)
    (info : option string) (id : option string)
  : Result (Transaction * Z) :=
  let self_btc := decimal_or_none btc in
  let self_usd := decimal_or_none usd in
  let self_price := decimal_or_none price in
  let self_fee_usd := decimal_or_none fee_usd in
  let self_fee_btc := decimal_or_none fee_btc in
  let* self_price :=
    match self_btc, self_usd, self_price with
    | Some b, Some u, None =>
        if Dec.truthy b && Dec.truthy u
        then (let* p := Dec.div u b in Ok (Some p))
        else Ok self_price
    | _, _, _ => Ok self_price
    end in
  let '(id, _unique) :=
    match id with
    | None => unique _unique
    | Some i => (i, _unique)
    end in
  Ok (mkTransaction timestamp type self_btc self_usd self_price
        self_fee_usd self_fee_btc info id None, _unique).

(** [Transaction.__cmp__] *)
Definition Transaction_cmp (left right : Transaction) : comparison :=
  cmp_or (cmp_time (timestamp left) (timestamp right))
         (cmp_str (id left) (id right)).

(** ** Lots *)

Record Lot : Type := mkLot {
  lot_timestamp : struct_time;
  lot_btc : Decimal;
  lot_usd : Decimal;
  lot_price : Decimal;
  lot_transaction : Transaction
}.

(** [Lot.__init__] *)
Definition Lot_init (timestamp : struct_time) (btc usd : Decimal)
    (transaction : Transaction) : Result Lot :=
  let* price := Dec.div usd btc in
  Ok (mkLot timestamp btc usd price transaction).

(** [Lot.sell]; [None] is Python's [None]. *)
Definition Lot_sell (self : Lot) (btc : Decimal) : Result (option Lot) :=
  if Dec.ltb (lot_btc self) btc then Ok None
  else
    let* sold := roundd (Dec.mul (lot_price self) btc) 2 in
    let* l := Lot_init (lot_timestamp self) (Dec.sub (lot_btc self) btc)
                (Dec.sub (lot_usd self) sold) (lot_transaction self) in
    Ok (Some l).

(** [Lot.__cmp__] under [parsed_args.method]; [None] when neither branch
    of the method test is taken (the function falls off its end). *)
Definition Lot_cmp (method : string) (left right : Lot) : option comparison :=
  if String.eqb method "fifo" then
    Some (cmp_or (cmp_time (lot_timestamp left) (lot_timestamp right))
                 (Transaction_cmp (lot_transaction left) (lot_transaction right)))
  else if String.eqb method "lifo" then
    Some (cmp_or (cmp_time (lot_timestamp right) (lot_timestamp left))
                 (Transaction_cmp (lot_transaction left) (lot_transaction right)))
  else None.

(** ** [heapq]

    The heap is a Python list used as an array: [heap[k] <= heap[2*k+1]]
    and [heap[k] <= heap[2*k+2]].  Items are compared with [cmp_lt], which
    may raise. *)

Section Heapq.

Context {A : Type}.
Variable cmp_lt : A -> A -> Result bool.

(** [heap[i]] and [heap[i] = x]: out of range raises IndexError. *)
Definition getitem (heap : list A) (i : nat) : Result A :=
  match heap !! i with
  | Some x => Ok x
  | None => Raise IndexError
  end.

Definition setitem (heap : list A) (i : nat) (x : A) : Result (list A) :=
  if decide (i < length heap) then Ok (<[i:=x]> heap) else Raise IndexError.

(** [heap.pop()] *)
Definition list_pop (heap : list A) : Result (A * list A) :=
  match last heap with
  | Some x => Ok (x, take (length heap - 1) heap)
  | None => Raise IndexError
  end.

(** The loop of [_siftdown]: move [newitem] from the leaf at [pos]
    towards the root until it fits. *)
Equations? siftdown_loop (heap : list A) (startpos pos : nat) (newitem : A)
  : Result (list A) by wf pos lt :=
  siftdown_loop heap startpos pos newitem with decide (startpos < pos) => {
    | right _ => setitem heap pos newitem
    | left _ with getitem heap ((pos - 1) / 2) => {
        | Raise e => Raise e
        | Ok parent with cmp_lt newitem parent => {
            | Raise e => Raise e
            | Ok false => setitem heap pos newitem
            | Ok true with setitem heap pos parent => {
                | Raise e => Raise e
                | Ok heap' =>
                    siftdown_loop heap' startpos ((pos - 1) / 2) newitem } } } }.
Proof.
  change (Nat.divmod (pos - 1) 1 0 1).1 with ((pos - 1) / 2).
  apply Nat.Div0.div_lt_upper_bound; lia.
Qed.

Definition siftdown (heap : list A) (startpos pos : nat) : Result (list A) :=
  let* newitem := getitem heap pos in
  siftdown_loop heap startpos pos newitem.

(** "Set childpos to index of smaller child": does the right child
    replace the left one? *)
Definition pick_right (heap : list A) (endpos childpos : nat) : Result bool :=
  let rightpos := childpos + 1 in
  if decide (rightpos < endpos) then
    let* l := getitem heap childpos in
    let* r := getitem heap rightpos in
    let* b := cmp_lt l r in
    Ok (negb b)
  else Ok false.

(** The loop of [_siftup]: bubble the smaller child up until a leaf is
    reached; returns the heap and the position of the leaf. *)
Equations? siftup_loop (heap : list A) (endpos pos : nat)
  : Result (list A * nat) by wf (endpos - pos) lt :=
  siftup_loop heap endpos pos with decide (2 * pos + 1 < endpos) => {
    | right _ => Ok (heap, pos)
    | left _ with pick_right heap endpos (2 * pos + 1) => {
        | Raise e => Raise e
        | Ok b with getitem heap (if b then 2 * pos + 1 + 1 else 2 * pos + 1) => {
            | Raise e => Raise e
            | Ok child with setitem heap pos child => {
                | Raise e => Raise e
                | Ok heap' =>
                    siftup_loop heap' endpos
                      (if b then 2 * pos + 1 + 1 else 2 * pos + 1) } } } }.
Proof. destruct b; lia. Qed.

Definition siftup (heap : list A) (pos : nat) : Result (list A) :=
  let endpos := length heap in
  let startpos := pos in
  let* newitem := getitem heap pos in
  let* (heap, pos) := siftup_loop heap endpos pos in
  let* heap := setitem heap pos newitem in
  siftdown heap startpos pos.

Definition heappush (heap : list A) (item : A) : Result (list A) :=
  let heap := heap ++ [item] in
  siftdown heap 0 (length heap - 1).

Definition heappop (heap : list A) : Result (A * list A) :=
  let* (lastelt, heap) := list_pop heap in
  match heap with
  | [] => Ok (lastelt, heap)
  | _ :: _ =>
      let* returnitem := getitem heap 0 in
      let* heap := setitem heap 0 lastelt in
      let* heap := siftup heap 0 in
      Ok (returnitem, heap)
  end.

End Heapq.

(** Both heap operations keep the length under control; the selling loop
    of the ledger terminates because every [heappop] shortens the heap. *)

Section HeapqLength.
Context {A : Type}.
Variable cmp_lt : A -> A -> Result bool.

Lemma setitem_length (h : list A) i x h' :
  setitem h i x = Ok h' -> length h' = length h.
Proof.
  unfold setitem. case_decide; [|done]. intros [= <-]. by rewrite length_insert.
Qed.

Lemma siftdown_loop_length (heap : list A) startpos pos newitem heap' :
  siftdown_loop cmp_lt heap startpos pos newitem = Ok heap' ->
  length heap' = length heap.
Proof.
  funelim (siftdown_loop cmp_lt heap startpos pos newitem);
    try discriminate; eauto using setitem_length.
  intros E. erewrite H by eassumption. eauto using setitem_length.
Qed.

Lemma siftup_loop_length (heap : list A) endpos pos heap' pos' :
  siftup_loop cmp_lt heap endpos pos = Ok (heap', pos') ->
  length heap' = length heap.
Proof.
  funelim (siftup_loop cmp_lt heap endpos pos); try discriminate.
  - by intros [= <- <-].
  - intros E. erewrite H by eassumption. eauto using setitem_length.
Qed.

Lemma siftup_length (heap : list A) pos heap' :
  siftup cmp_lt heap pos = Ok heap' -> length heap' = length heap.
Proof.
  unfold siftup, siftdown.
  destruct (getitem heap pos); [|done]. simpl.
  destruct (siftup_loop _ _ _ _) as [[h1 p1]|] eqn:E1; [|done]. simpl.
  destruct (setitem h1 p1 a) as [h2|] eqn:E2; [|done]. simpl.
  destruct (getitem h2 p1); [|done]. simpl.
  intros E3%siftdown_loop_length.
  apply setitem_length in E2. apply siftup_loop_length in E1. congruence.
Qed.

Lemma heappop_length (heap : list A) x heap' :
  heappop cmp_lt heap = Ok (x, heap') -> S (length heap') = length heap.
Proof.
  unfold heappop, list_pop.
  destruct (last heap) as [z|] eqn:El; [|done]. simpl.
  assert (length heap <> 0) as Hne by (destruct heap; done).
  assert (length (take (length heap - 1) heap) = length heap - 1) as Ht
    by (rewrite length_take; lia).
  destruct (take (length heap - 1) heap) as [|y t] eqn:Et.
  - intros [= <- <-]. simpl in *. lia.
  - simpl. destruct (siftup _ _ _) as [h3|] eqn:E3; [|done]. simpl.
    intros [= <- <-]. apply siftup_length in E3.
    rewrite E3. simpl in *. rewrite ?length_insert. simpl. lia.
Qed.
End HeapqLength.

(** ** Strings

    The few [str] methods and the one regular expression that [fmv] uses,
    on lists of characters. *)

Module Str.

Definition chars (s : string) : list ascii := list_ascii_of_string s.
Definition of_chars (l : list ascii) : string := string_of_list_ascii l.

(** [string.whitespace] *)
Definition is_space (c : ascii) : bool :=
  let n := nat_of_ascii c in
  (n =? 32)%nat || ((9 <=? n)%nat && (n <=? 13)%nat).

Definition is_digit (c : ascii) : bool :=
  let n := nat_of_ascii c in (48 <=? n)%nat && (n <=? 57)%nat.

Definition digit_val (c : ascii) : Z := Z.of_nat (nat_of_ascii c) - 48.

Fixpoint lstrip (l : list ascii) : list ascii :=
  match l with
  | c :: r => if is_space c then lstrip r else l
  | [] => []
  end.

(** [s.strip()] *)
Definition strip (l : list ascii) : list ascii :=
  rev (lstrip (rev (lstrip l))).

(** Cut [l] at every character satisfying [is_sep]; the pieces may be
    empty and there is always at least one. *)
Fixpoint split_by (is_sep : ascii -> bool) (l : list ascii) : list (list ascii) :=
  match l with
  | [] => [[]]
  | c :: r =>
      let parts := split_by is_sep r in
      if is_sep c then [] :: parts
      else match parts with
           | p :: ps => (c :: p) :: ps
           | [] => [[c]]
           end
  end.

(** [s.split(sep)] for a one-character separator. *)
Definition split (sep : ascii) (l : list ascii) : list (list ascii) :=
  split_by (Ascii.eqb sep) l.

(** [s.split()]: the words between runs of whitespace. *)
Definition split_ws (l : list ascii) : list (list ascii) :=
  filter (fun w => w <> []) (split_by is_space l).

(** [sep.join(parts)] *)
Fixpoint join (sep : list ascii) (parts : list (list ascii)) : list ascii :=
  match parts with
  | [] => []
  | [p] => p
  | p :: ps => p ++ sep ++ join sep ps
  end.

(** Consume exactly [n] digits. *)
Fixpoint digits_n (n : nat) (l : list ascii) : option (list ascii) :=
  match n with
  | O => Some l
  | S n =>
      match l with
      | c :: r => if is_digit c then digits_n n r else None
      | [] => None
      end
  end.

Definition lit (c : ascii) (l : list ascii) : option (list ascii) :=
  match l with
  | d :: r => if Ascii.eqb c d then Some r else None
  | [] => None
  end.

Fixpoint span_digits (l : list ascii) : list ascii * list ascii :=
  match l with
  | c :: r =>
      if is_digit c then let (ds, rest) := span_digits r in (c :: ds, rest)
      else ([], l)
  | [] => ([], [])
  end.

(** [re.match(r'\d\d/\d\d/\d\d\d\d \d\d:\d\d:\d\d,\d+\.\d*', line)] *)
Definition match_blockchain (l : list ascii) : bool :=
  let steps :=
    [digits_n 2; lit "/"; digits_n 2; lit "/"; digits_n 4; lit " ";
     digits_n 2; lit ":"; digits_n 2; lit ":"; digits_n 2; lit ","] in
  match fold_left (fun acc step => acc ≫= step) steps (Some l) with
  | Some r =>
      let (ds, rest) := span_digits r in
      match ds, lit "." rest with
      | _ :: _, Some _ => true
      | _, _ => false
      end
  | None => false
  end.

Definition nat_of_digits (ds : list ascii) : Z :=
  fold_left (fun acc c => acc * 10 + digit_val c)%Z ds 0%Z.

(** [decimal.Decimal(s)] for the finite numerals
    [[+-] digits [. digits] [(e|E) [+-] digits]]; every other string is
    InvalidOperation. *)
Definition parse_decimal (l : list ascii) : Result Decimal :=
  let l := strip l in
  let '(sign, l) :=
    match l with
    | c :: r => if Ascii.eqb c "-" then (-1, r)%Z
                else if Ascii.eqb c "+" then (1, r)%Z else (1, l)%Z
    | [] => (1, l)%Z
    end in
  let (ip, l) := span_digits l in
  let '(fp, l) :=
    match lit "." l with
    | Some r => span_digits r
    | None => ([], l)
    end in
  match ip ++ fp with
  | [] => Raise InvalidOperation
  | _ :: _ =>
      let coef := (sign * nat_of_digits (ip ++ fp))%Z in
      let scale := (- Z.of_nat (length fp))%Z in
      match l with
      | [] => Ok (Qred (inject_Z coef * Dec.pow10 scale))
      | c :: r =>
          if Ascii.eqb c "e" || Ascii.eqb c "E" then
            let '(esign, r) :=
              match r with
              | c :: r' => if Ascii.eqb c "-" then (-1, r')%Z
                           else if Ascii.eqb c "+" then (1, r')%Z else (1, r)%Z
              | [] => (1, r)%Z
              end in
            match span_digits r with
            | ((_ :: _) as es, []) =>
                Ok (Qred (inject_Z coef
                          * Dec.pow10 (scale + esign * nat_of_digits es)))
            | _ => Raise InvalidOperation
            end
          else Raise InvalidOperation
      end
  end.

Definition upper_char (c : ascii) : ascii :=
  let n := nat_of_ascii c in
  if (97 <=? n)%nat && (n <=? 122)%nat then ascii_of_nat (n - 32) else c.

(** [s.upper()] *)
Definition upper (l : list ascii) : list ascii := map upper_char l.

Fixpoint is_prefix (p l : list ascii) : bool :=
  match p, l with
  | [], _ => true
  | c :: p', d :: l' => Ascii.eqb c d && is_prefix p' l'
  | _ :: _, [] => false
  end.

(** [sub in s] *)
Fixpoint contains (sub l : list ascii) : bool :=
  is_prefix sub l ||
  match l with
  | [] => false
  | _ :: r => contains sub r
  end.

(** [os.path.basename(path)] *)
Definition basename (l : list ascii) : list ascii :=
  default [] (last (split "/" l)).

(** [re.search(r'tid:\d+', info)]: the leftmost match, digits taken
    greedily. *)
Fixpoint search_tid (l : list ascii) : option (list ascii) :=
  let here :=
    if is_prefix (chars "tid:") l then
      match span_digits (drop 4 l) with
      | ((_ :: _) as ds, _) => Some (chars "tid:" ++ ds)
      | _ => None
      end
    else None in
  match here, l with
  | Some m, _ => Some m
  | None, [] => None
  | None, _ :: r => search_tid r
  end.

End Str.

(** ** The price oracle: [fmv]

    [feed] is the sequence of lines that iterating over the opened feed
    yields; every line but possibly the last ends with its newline.
    [prices] is the global table. *)

Inductive FeedFormat : Type := bitcoinaverage | blockchain.

(** The locals of [fmv] that live across iterations, and the table. *)
Record FmvFrame : Type := mkFmvFrame {
  fr_format : option FeedFormat;
  fr_price : option (list ascii);   (* the local [price], unbound at first *)
  fr_prices : gmap string Decimal
}.

Definition bitcoinaverage_header : string := "datetime,high,low,average,volume".

(** One iteration of the [for line in ...] loop. *)
Definition fmv_line (fr : FmvFrame) (line : string) : Result FmvFrame :=
  let l := Str.chars line in
  (* lint = line.strip()   -- never read *)
  match l with
  | [] => Ok fr
  | _ :: _ =>
      let* (fmt, skip) :=
        match fr_format fr with
        | Some f => Ok (f, false)
        | None =>
            if String.eqb line bitcoinaverage_header then Ok (bitcoinaverage, true)
            else if Str.match_blockchain l then Ok (blockchain, false)
            else Raise ValueError
        end in
      if skip : bool then Ok (mkFmvFrame (Some fmt) (fr_price fr) (fr_prices fr))
      else
        let cols := Str.split "," (Str.strip l) in
        match fmt with
        | bitcoinaverage =>
            let* c0 := getitem cols 0 in
            let* date := getitem (Str.split_ws c0) 0 in
            let* c1 := getitem cols 1 in
            let* high := Str.parse_decimal c1 in
            let* c2 := getitem cols 2 in
            let* low := Str.parse_decimal c2 in
            let* average := Dec.div (Dec.add high low) 2%Q in
            let prices := <[Str.of_chars date := average]> (fr_prices fr) in
            (* prices[date] = decimal.Decimal(price) *)
            match fr_price fr with
            | None => Raise UnboundLocalError
            | Some price =>
                let* p := Str.parse_decimal price in
                Ok (mkFmvFrame (Some fmt) (Some price)
                      (<[Str.of_chars date := p]> prices))
            end
        | blockchain =>
            let* c0 := getitem cols 0 in
            let* w := getitem (Str.split_ws c0) 0 in
            let date := Str.join (Str.chars "-") (rev (Str.split "/" w)) in
            let* price := getitem cols 1 in
            let* p := Str.parse_decimal price in
            Ok (mkFmvFrame (Some fmt) (Some price)
                  (<[Str.of_chars date := p]> (fr_prices fr)))
        end
  end.

Fixpoint fmv_lines (fr : FmvFrame) (feed : list string) : Result FmvFrame :=
  match feed with
  | [] => Ok fr
  | line :: rest =>
      let* fr := fmv_line fr line in
      fmv_lines fr rest
  end.

Definition pad2 (n : Z) : string :=
  if (0 <=? n)%Z && (n <? 10)%Z then String.append "0" (string_of_Z n)
  else string_of_Z n.

(** [time.strftime('%Y-%m-%d', timestamp)] *)
Definition strftime_Ymd (t : struct_time) : string :=
  String.append (string_of_Z (tm_year t))
    (String.append "-" (String.append (pad2 (tm_mon t))
       (String.append "-" (pad2 (tm_mday t))))).

(** [fmv(timestamp)]: returns the value and the table as it leaves it. *)
Definition fmv (feed : list string) (prices : gmap string Decimal)
    (timestamp : struct_time) : Result (Decimal * gmap string Decimal) :=
  let* prices :=
    if bool_decide (size prices = 0%nat) then
      let* fr := fmv_lines (mkFmvFrame None None prices) feed in
      Ok (fr_prices fr)
    else Ok prices in
  let date := strftime_Ymd timestamp in
  Ok (default 100%Q (prices !! date), prices).

(** ** [class Heap] over lots

    [heapq.cmp_lt(x, y)] is [not y <= x] for an instance without [__lt__];
    on old-style instances [y <= x] calls [y.__cmp__(x)], and a result that
    is not an integer is a TypeError. *)

Definition Lot_cmp_lt (method : string) (x y : Lot) : Result bool :=
  match Lot_cmp method y x with
  | None => Raise TypeError
  | Some Gt => Ok true
  | Some _ => Ok false
  end.

Definition Heap_push (method : string) (data : list Lot) (item : Lot)
  : Result (list Lot) :=
  heappush (Lot_cmp_lt method) data item.

Definition Heap_pop (method : string) (data : list Lot)
  : Result (Lot * list Lot) :=
  heappop (Lot_cmp_lt method) data.

(** ** The ledger: the accounting loop of [main] *)

(** An attribute used as a number: [None] in arithmetic is a TypeError. *)
Definition number (o : option Decimal) : Result Decimal :=
  match o with
  | Some d => Ok d
  | None => Raise TypeError
  end.

(** [inspect x] matches on [x] and keeps the equation. *)
Definition inspect {A : Type} (x : A) : {y : A | x = y} := exist _ x eq_refl.

(** The [while btc > 0] loop of a disposal.  The split branch sets
    [btc = 0], which ends the loop. *)
Equations? sell_loop (method : string) (lots : list Lot)
    (total_cost gains btc : Decimal)
  : Result (list Lot * Decimal * Decimal) by wf (length lots) lt :=
  sell_loop method lots total_cost gains btc with Dec.ltb 0 btc => {
    | false => Ok (lots, total_cost, gains)
    | true with inspect (Heap_pop method lots) => {
        | exist _ (Raise e) _ => Raise e
        | exist _ (Ok (lot, rest)) Hpop with Dec.leb (lot_btc lot) btc => {
            | true =>
                sell_loop method rest
                  (Dec.sub total_cost (lot_usd lot))
                  (Dec.sub gains (lot_usd lot))
                  (Dec.sub btc (lot_btc lot))
            | false with Lot_sell lot btc => {
                | Raise e => Raise e
                | Ok None => Raise AttributeError
                | Ok (Some remaining) with Heap_push method rest remaining => {
                    | Raise e => Raise e
                    | Ok lots' =>
                        let sold := Dec.sub (lot_usd lot) (lot_usd remaining) in
                        Ok (lots', Dec.sub total_cost sold, Dec.sub gains sold)
                  } } } } }.
Proof. apply heappop_length in Hpop. lia. Qed.

(** The running totals, the open lots and the price table. *)
Record Ledger : Type := mkLedger {
  lots : list Lot;
  total_cost : Decimal;
  total_btc : Decimal;
  gains : Decimal;
  prices : gmap string Decimal
}.

(** The figures printed after each transaction. *)
Record Report : Type := mkReport {
  rep_total_btc : Decimal;
  rep_total_cost : Decimal;
  rep_market_value : Decimal;
  rep_gains : Decimal;
  rep_unrealized_gains : Decimal
}.

Definition Ledger_init (prices : gmap string Decimal) : Ledger :=
  mkLedger [] 0%Q 0%Q 0%Q prices.

(** The fiat value and asset delta of a transaction (first statement of
    the loop body), with the price table as [fmv] leaves it. *)
Definition usd_btc (feed : list string) (prices : gmap string Decimal)
    (t : Transaction)
  : Result (Decimal * option Decimal * gmap string Decimal) :=
  if TxType_eqb (type t) trade then
    let* u := number (usd t) in
    let* f := number (fee_usd t) in
    Ok (Dec.add u f, btc t, prices)
  else
    let btc := btc t in
    let* (p, prices) :=
      match price t with
      | Some p => if Dec.truthy p then Ok (p, prices)
                  else fmv feed prices (timestamp t)
      | None => fmv feed prices (timestamp t)
      end in
    let* b := number btc in
    let* usd := roundd (Dec.mul (Dec.neg p) b) 2 in
    Ok (usd, Some b, prices).

(** One iteration of [for t in all]. *)
Definition ledger_step (method : string) (feed : list string)
    (st : Ledger) (t : Transaction) : Result (Ledger * Report) :=
  let* (usd, btc, prices) := usd_btc feed (prices st) t in
  let* btc := number btc in
  let total_btc := Dec.add (total_btc st) btc in
  let* (lots, total_cost, gains) :=
    if Dec.ltb 0 btc then
      let* lot := Lot_init (timestamp t) btc (Dec.neg usd) t in
      let* lots := Heap_push method (lots st) lot in
      Ok (lots, Dec.sub (total_cost st) usd, gains st)
    else
      let btc := Dec.neg btc in
      let gains := Dec.add (gains st) usd in
      sell_loop method (lots st) (total_cost st) gains btc in
  let* (market_value, prices) := fmv feed prices (timestamp t) in
  Ok (mkLedger lots total_cost total_btc gains prices,
      mkReport total_btc total_cost market_value gains
        (Dec.sub (Dec.mul market_value total_btc) total_cost)).

(** The whole loop: the reports printed, and the final ledger or the
    exception that ended the run. *)
Fixpoint ledger_loop (method : string) (feed : list string)
    (st : Ledger) (all : list Transaction) : list Report * Result Ledger :=
  match all with
  | [] => ([], Ok st)
  | t :: rest =>
      match ledger_step method feed st t with
      | Raise e => ([], Raise e)
      | Ok (st', rep) =>
          let (reps, r) := ledger_loop method feed st' rest in
          (rep :: reps, r)
      end
  end.

(** ** Transfer matching (the two loops of [main] over [deposits]) *)

(** [list.remove(x)]: drop the first item equal to [x]; ValueError when
    there is none.  Transactions are equal when [__cmp__] gives zero. *)
Fixpoint list_remove (x : Transaction) (l : list Transaction)
  : Result (list Transaction) :=
  match l with
  | [] => Raise ValueError
  | y :: r =>
      match Transaction_cmp y x with
      | Eq => Ok r
      | _ => let* r' := list_remove x r in Ok (y :: r')
      end
  end.

(** [deposits]: a dictionary from amounts to lists of transactions; keys
    are Decimals, looked up by numerical value. *)
Definition Deposits := list (Decimal * list Transaction).

Fixpoint dict_get (k : Decimal) (d : Deposits) : option (list Transaction) :=
  match d with
  | [] => None
  | (k', v) :: r => if Dec.eqb k' k then Some v else dict_get k r
  end.

Fixpoint dict_set (k : Decimal) (v : list Transaction) (d : Deposits) : Deposits :=
  match d with
  | [] => [(k, v)]
  | (k', v') :: r =>
      if Dec.eqb k' k then (k', v) :: r else (k', v') :: dict_set k v r
  end.

(** What the matching loop prints. *)
Inductive MatchEvent : Type :=
| ev_match (t candidate : Transaction)
| ev_no_match (t : Transaction) (matches : list Transaction).

Section TransferMatching.

(** [time.mktime] depends on the local time zone; it yields whole
    seconds.  [transfer_window_hours] is the command-line setting. *)
Variable mktime : struct_time -> Z.
Variable transfer_window_hours : Z.

(** [for t in all: if t.type == 'deposit' and t.btc: ...] *)
Definition index_deposits (all : list Transaction) : Deposits :=
  fold_left
    (fun deposits t =>
       match type t, btc t with
       | deposit, Some b =>
           if Dec.truthy b
           then dict_set b (default [] (dict_get b deposits) ++ [t]) deposits
           else deposits
       | _, _ => deposits
       end)
    all [].

Definition in_window (candidate t : Transaction) : bool :=
  (Z.abs (mktime (timestamp candidate) - mktime (timestamp t))
   <? transfer_window_hours * 3600)%Z.

(** The body of [for t in list(all)]. *)
Definition match_step
    (st : list Transaction * Deposits * list MatchEvent) (t : Transaction)
  : Result (list Transaction * Deposits * list MatchEvent) :=
  let '(all, deposits, events) := st in
  match type t, btc t with
  | withdraw, Some b =>
      if Dec.truthy b then
        let key := Dec.neg b in
        let matches := default [] (dict_get key deposits) in
        match List.find (fun candidate => in_window candidate t) matches with
        | Some candidate =>
            let* all := list_remove t all in
            let* all := list_remove candidate all in
            let* matches := list_remove candidate matches in
            Ok (all, dict_set key matches deposits,
                events ++ [ev_match t candidate])
        | None =>
            match matches with
            | [] => Ok st
            | _ :: _ => Ok (all, deposits, events ++ [ev_no_match t matches])
            end
        end
      else Ok st
  | _, _ => Ok st
  end.

Fixpoint match_loop
    (st : list Transaction * Deposits * list MatchEvent)
    (snapshot : list Transaction)
  : Result (list Transaction * Deposits * list MatchEvent) :=
  match snapshot with
  | [] => Ok st
  | t :: rest =>
      let* st := match_step st t in
      match_loop st rest
  end.

(** The surviving transactions and the events printed. *)
Definition transfer_match (all : list Transaction)
  : Result (list Transaction * list MatchEvent) :=
  let deposits := index_deposits all in
  let* (all, _, events) := match_loop (all, deposits, []) all in
  Ok (all, events).

End TransferMatching.

(** ** Parsers and [main] *)

Definition ParserKind_eqb (a b : ParserKind) : bool :=
  match a, b with
  | BitstampParser, BitstampParser | MtGoxParser, MtGoxParser
  | BitcoindParser, BitcoindParser | CoinbaseParser, CoinbaseParser => true
  | _, _ => false
  end.

(** The attributes of the one [MtGoxParser] instance. *)
Record MtGoxState : Type := mkMtGoxState {
  seen_usd : Z;
  seen_btc : Z;
  is_btc : option bool    (* unset until the first file is parsed *)
}.

Definition MtGoxParser_new : MtGoxState := mkMtGoxState 0 0 None.

(** [MtGoxParser.check_complete] *)
Definition MtGoxParser_check_complete (self : MtGoxState) : Result unit :=
  if (seen_usd self =? seen_btc self)%Z then Ok tt else Raise ValueError.

(** A data row of a MtGox ledger file, its date and value converted. *)
Record MtGoxRow : Type := mkMtGoxRow {
  row_timestamp : struct_time;
  row_type : string;
  row_info : string;
  row_value : Decimal
}.

(** [MtGoxParser.parse_row] *)
Definition MtGoxParser_parse_row (self : MtGoxState) (_unique : Z)
    (row : MtGoxRow) : Result (Transaction * Z) :=
  let timestamp := row_timestamp row in
  let value := row_value row in
  let info := row_info row in
  let '(id, _unique) :=
    match Str.search_tid (Str.chars info) with
    | Some m => (Str.of_chars m, _unique)
    | None => unique _unique
    end in
  let zero := Some 0%Q in
  let ty := row_type row in
  if String.eqb ty "out" then
    Transaction_init _unique timestamp trade (Some (Dec.neg value)) zero zero
      zero zero (Some info) (Some id)
  else if String.eqb ty "in" then
    Transaction_init _unique timestamp trade (Some value) zero zero
      zero zero (Some info) (Some id)
  else if String.eqb ty "earned" then
    Transaction_init _unique timestamp trade zero (Some value) zero
      zero zero (Some info) (Some id)
  else if String.eqb ty "spent" then
    Transaction_init _unique timestamp trade zero (Some (Dec.neg value)) zero
      zero zero (Some info) (Some id)
  else if String.eqb ty "fee" then
    match is_btc self with
    | None => Raise AttributeError
    | Some true =>
        Transaction_init _unique timestamp fee zero zero zero
          zero (Some value) (Some info) (Some id)
    | Some false =>
        Transaction_init _unique timestamp fee zero zero zero
          (Some value) zero (Some info) (Some id)
    end
  else if String.eqb ty "withdraw" then
    match is_btc self with
    | None => Raise AttributeError
    | Some true =>
        Transaction_init _unique timestamp withdraw (Some (Dec.neg value)) zero
          zero zero zero (Some info) (Some id)
    | Some false => Raise ValueError
    end
  else if String.eqb ty "deposit" then
    match is_btc self with
    | None => Raise AttributeError
    | Some true =>
        Transaction_init _unique timestamp deposit (Some value) zero
          zero zero zero (Some info) (Some id)
    | Some false => Raise ValueError
    end
  else Raise ValueError.

Fixpoint MtGoxParser_parse_rows (self : MtGoxState) (_unique : Z)
    (rows : list MtGoxRow) : Result (list Transaction * Z) :=
  match rows with
  | [] => Ok ([], _unique)
  | row :: rest =>
      let* (t, _unique) := MtGoxParser_parse_row self _unique row in
      let* (ts, _unique) := MtGoxParser_parse_rows self _unique rest in
      Ok (t :: ts, _unique)
  end.

(** [MtGoxParser.parse_file], iterated to its end. *)
Definition MtGoxParser_parse_file (self : MtGoxState) (_unique : Z)
    (filename : string) (rows : list MtGoxRow)
  : Result (MtGoxState * list Transaction * Z) :=
  let basename := Str.upper (Str.basename (Str.chars filename)) in
  let* self :=
    if Str.contains (Str.chars "BTC") basename then
      Ok (mkMtGoxState (seen_usd self) (seen_btc self + 1) (Some true))
    else if Str.contains (Str.chars "USD") basename then
      Ok (mkMtGoxState (seen_usd self + 1) (seen_btc self) (Some false))
    else Raise ValueError in
  let* (ts, _unique) := MtGoxParser_parse_rows self _unique rows in
  Ok (self, ts, _unique).

(** [TransactionParser.merge] and the default [merge_some]. *)
Definition TransactionParser_merge (transactions : list Transaction)
  : Result Transaction :=
  match transactions with
  | [t] => Ok t
  | _ => Raise AssertionError
  end.

Definition set_parser (p : option ParserKind) (t : Transaction) : Transaction :=
  mkTransaction (timestamp t) (type t) (btc t) (usd t) (price t)
    (fee_usd t) (fee_btc t) (info t) (id t) p.

Definition set_btc (v : option Decimal) (t : Transaction) : Transaction :=
  mkTransaction (timestamp t) (type t) v (usd t) (price t)
    (fee_usd t) (fee_btc t) (info t) (id t) (parser t).

Definition set_usd (v : option Decimal) (t : Transaction) : Transaction :=
  mkTransaction (timestamp t) (type t) (btc t) v (price t)
    (fee_usd t) (fee_btc t) (info t) (id t) (parser t).

Definition set_price (v : option Decimal) (t : Transaction) : Transaction :=
  mkTransaction (timestamp t) (type t) (btc t) (usd t) v
    (fee_usd t) (fee_btc t) (info t) (id t) (parser t).

Definition set_fee_usd (v : option Decimal) (t : Transaction) : Transaction :=
  mkTransaction (timestamp t) (type t) (btc t) (usd t) (price t)
    v (fee_btc t) (info t) (id t) (parser t).

Definition set_fee_btc (v : option Decimal) (t : Transaction) : Transaction :=
  mkTransaction (timestamp t) (type t) (btc t) (usd t) (price t)
    (fee_usd t) v (info t) (id t) (parser t).

(** [if getattr(t, attr): setattr(merged, attr, getattr(t, attr))] over
    the five attributes. *)
Definition absorb (merged t : Transaction) : Transaction :=
  let take_if (get : Transaction -> option Decimal)
              (set : option Decimal -> Transaction -> Transaction)
              (m : Transaction) :=
    if truthy_opt (get t) then set (get t) m else m in
  take_if price set_price
    (take_if fee_btc set_fee_btc
       (take_if fee_usd set_fee_usd
          (take_if usd set_usd
             (take_if btc set_btc merged)))).

(** [MtGoxParser.merge].  [list(types)[0]] takes an arbitrary element of
    the set of the members' types without ['fee']; the first one in member
    order stands for it (the groups MtGox produces have one such type). *)
Definition MtGoxParser_merge (_unique : Z) (transactions : list Transaction)
  : Result (Transaction * Z) :=
  match transactions with
  | [] => Raise IndexError
  | [t] => Ok (t, _unique)
  | t0 :: _ =>
      let types :=
        filter (fun ty => TxType_eqb ty fee = false) (map type transactions) in
      let* ty := getitem types 0 in
      let* (merged, _unique) :=
        Transaction_init _unique (timestamp t0) ty None None None
          (Some 0%Q) (Some 0%Q) None (Some (id t0)) in
      let merged := set_parser (parser t0) merged in
      let merged := fold_left absorb transactions merged in
      let* merged :=
        if negb (truthy_opt (price merged)) && TxType_eqb (type t0) trade then
          let* u := number (usd merged) in
          let* b := number (btc merged) in
          let* p := Dec.div u b in
          Ok (set_price (Some p) merged)
        else Ok merged in
      let* merged :=
        if negb (truthy_opt (fee_usd merged)) && truthy_opt (fee_btc merged) then
          match price merged, fee_btc merged with
          | Some p, Some f =>
              if Dec.truthy p then
                let* r := roundd (Dec.mul p f) 4 in
                Ok (set_fee_usd (Some r) merged)
              else
                let* b := number (btc merged) in
                Ok (set_btc (Some (Dec.add b f)) merged)
          | _, Some f =>
              let* b := number (btc merged) in
              Ok (set_btc (Some (Dec.add b f)) merged)
          | _, None => Ok merged
          end
        else Ok merged in
      Ok (merged, _unique)
  end.

(** [merge_some] of each parser class. *)
Definition merge_some (p : option ParserKind) (_unique : Z)
    (transactions : list Transaction) : Result (list Transaction * Z) :=
  match p with
  | None => Raise AttributeError
  | Some MtGoxParser =>
      let* (t, _unique) := MtGoxParser_merge _unique transactions in
      Ok ([t], _unique)
  | Some BitcoindParser =>
      match transactions with
      | [] => Ok ([], _unique)
      | t :: rest => Ok (t :: map (set_fee_btc (Some 0%Q)) rest, _unique)
      end
  | Some _ =>
      let* t := TransactionParser_merge transactions in
      Ok ([t], _unique)
  end.

(** [by_date[t.parser, t.id].append(t)]: the groups are kept in the order
    in which their keys first occur (a Python 2 dict iterates in an
    order of its own; the list is sorted afterwards). *)
Definition same_event (a b : Transaction) : bool :=
  match parser a, parser b with
  | Some p, Some q => ParserKind_eqb p q && String.eqb (id a) (id b)
  | None, None => String.eqb (id a) (id b)
  | _, _ => false
  end.

Fixpoint by_date_append (t : Transaction) (by_date : list (list Transaction))
  : list (list Transaction) :=
  match by_date with
  | [] => [[t]]
  | [] :: r => [] :: by_date_append t r
  | ((t0 :: _) as g) :: r =>
      if same_event t0 t then (g ++ [t]) :: r else g :: by_date_append t r
  end.

Fixpoint merge_groups (_unique : Z) (by_date : list (list Transaction))
  : Result (list Transaction * Z) :=
  match by_date with
  | [] => Ok ([], _unique)
  | g :: r =>
      let* (merged, _unique) :=
        merge_some (match g with t0 :: _ => parser t0 | [] => None end)
                   _unique g in
      let* (rest, _unique) := merge_groups _unique r in
      Ok (merged ++ rest, _unique)
  end.

(** [all.sort()]: a stable sort by [Transaction.__cmp__]. *)
Fixpoint sort_insert (t : Transaction) (sorted : list Transaction)
  : list Transaction :=
  match sorted with
  | [] => [t]
  | y :: r =>
      match Transaction_cmp y t with
      | Lt => y :: sort_insert t r
      | _ => t :: sorted
      end
  end.

Definition list_sort (all : list Transaction) : list Transaction :=
  fold_right sort_insert [] all.

(** The final [while len(lots): print lots.pop()]. *)
Equations? drain (method : string) (lots : list Lot) : Result (list Lot)
  by wf (length lots) lt :=
  drain method [] := Ok [];
  drain method (l :: ls) with inspect (Heap_pop method (l :: ls)) => {
    | exist _ (Raise e) _ => Raise e
    | exist _ (Ok (lot, rest)) Hpop with drain method rest => {
        | Raise e => Raise e
        | Ok printed => Ok (lot :: printed) } }.
Proof. apply heappop_length in Hpop. simpl in *. lia. Qed.

Record Args : Type := mkArgs {
  histories : list string;
  transfer_window_hours : Z;
  method : string
}.

(** What [main] prints, stage by stage, and how it ends. *)
Record Output : Type := mkOutput {
  out_events : list MatchEvent;
  out_reports : list Report;
  out_final : Result (Ledger * Report * list Lot)
}.

Section Main.

(** The environment: what the history files contain, the lines of the
    price feed, the local time zone and the clock. *)
Variable can_parse : ParserKind -> string -> bool.
Variable mtgox_rows : string -> list MtGoxRow.
Variable parse_file_other :
  ParserKind -> string -> Z -> Result (list Transaction * Z).
Variable feed : list string.
Variable mktime : struct_time -> Z.
Variable yesterday : struct_time.

Definition parsers : list ParserKind :=
  [BitstampParser; MtGoxParser; BitcoindParser; CoinbaseParser].

(** The body of [for file in args.histories]. *)
Definition load_file (st : MtGoxState * Z * list Transaction) (file : string)
  : Result (MtGoxState * Z * list Transaction) :=
  let '(mtgox, _unique, all) := st in
  match List.find (fun p => can_parse p file) parsers with
  | None => Raise RuntimeError
  | Some MtGoxParser =>
      let* (mtgox, ts, _unique) :=
        MtGoxParser_parse_file mtgox _unique file (mtgox_rows file) in
      Ok (mtgox, _unique, all ++ map (set_parser (Some MtGoxParser)) ts)
  | Some p =>
      let* (ts, _unique) := parse_file_other p file _unique in
      Ok (mtgox, _unique, all ++ map (set_parser (Some p)) ts)
  end.

Fixpoint load_histories (st : MtGoxState * Z * list Transaction)
    (files : list string) : Result (MtGoxState * Z * list Transaction) :=
  match files with
  | [] => Ok st
  | file :: rest =>
      let* st := load_file st file in
      load_histories st rest
  end.

(** Parsing, merging and transfer matching: everything before the
    accounting loop. *)
Definition prepare (args : Args)
  : Result (MtGoxState * list Transaction * list MatchEvent) :=
  let* (mtgox, _unique, all) :=
    load_histories (MtGoxParser_new, 0%Z, []) (histories args) in
  let by_date := fold_left (fun d t => by_date_append t d) all [] in
  let* (all, _unique) := merge_groups _unique by_date in
  let all := list_sort all in
  let* (all, events) :=
    transfer_match mktime (transfer_window_hours args) all in
  Ok (mtgox, all, events).

Definition main (args : Args) : Output :=
  match prepare args with
  | Raise e => mkOutput [] [] (Raise e)
  | Ok (_, all, events) =>
      let all := list_sort all in
      let (reports, r) :=
        ledger_loop (method args) feed (Ledger_init ∅) all in
      mkOutput events reports
        (let* st := r in
         let* (market_value, prices) := fmv feed (prices st) yesterday in
         let* printed := drain (method args) (lots st) in
         Ok (st,
             mkReport (total_btc st) (total_cost st) market_value (gains st)
               (Dec.sub (Dec.mul market_value (total_btc st)) (total_cost st)),
             printed))
  end.

End Main.

(** ** [CsvParser] and [BitstampParser]

    [rows] is what [csv.reader] yields for the file, a list of fields per
    line.  [parse_file] is a generator; [main] runs it to its end. *)

Definition is_empty_row (row : list string) : bool :=
  match row with
  | [] => true
  | _ :: _ => false
  end.

Section CsvParser.

(** [self.parse_row], with the counter of [unique] threaded through;
    [None] is Python's [None]. *)
Variable parse_row : Z -> list string -> Result (option Transaction * Z).

(** The loop of [CsvParser.parse_file]; [first] is its local flag. *)
Fixpoint CsvParser_parse_loop (first : bool) (_unique : Z)
    (rows : list (list string)) : Result (list Transaction * Z) :=
  match rows with
  | [] => Ok ([], _unique)
  | row :: rest =>
      if is_empty_row row || first then
        (* first = False; continue *)
        CsvParser_parse_loop false _unique rest
      else
        let* (transaction, _unique) := parse_row _unique row in
        let* (ts, _unique) := CsvParser_parse_loop first _unique rest in
        match transaction with
        | Some t => Ok (t :: ts, _unique)
        | None => Ok (ts, _unique)
        end
  end.

Definition CsvParser_parse_file (_unique : Z) (rows : list (list string))
  : Result (list Transaction * Z) :=
  CsvParser_parse_loop true _unique rows.

End CsvParser.

Section BitstampParser.

(** [time.strptime(s, '%Y-%m-%d %H:%M:%S')]; [None] stands for the
    ValueError of a string that does not match the format. *)
Variable strptime : string -> option struct_time.

(** [BitstampParser.parse_row].  The constructor converts the columns it
    is given with [decimal.Decimal]. *)
Definition BitstampParser_parse_row (_unique : Z) (row : list string)
  : Result (option Transaction * Z) :=
  match row with
  | [type; timestamp; btc; usd; price; fee_] =>
      let* timestamp :=
        match strptime timestamp with
        | Some ts => Ok ts
        | None => Raise ValueError
        end in
      let zero := Some 0%Q in
      if String.eqb type "0" then
        let* b := Str.parse_decimal (Str.chars btc) in
        let* (t, _unique) :=
          Transaction_init _unique timestamp deposit (Some b) zero zero
            zero zero None None in
        Ok (Some t, _unique)
      else if String.eqb type "1" then
        let* b := Str.parse_decimal (Str.chars btc) in
        let* (t, _unique) :=
          Transaction_init _unique timestamp withdraw (Some b) zero zero
            zero zero None None in
        Ok (Some t, _unique)
      else if String.eqb type "2" then
        let* b := Str.parse_decimal (Str.chars btc) in
        let* u := Str.parse_decimal (Str.chars usd) in
        let* p := Str.parse_decimal (Str.chars price) in
        let* f := Str.parse_decimal (Str.chars fee_) in
        let* (t, _unique) :=
          Transaction_init _unique timestamp trade (Some b) (Some u) (Some p)
            (Some f) zero None None in
        Ok (Some t, _unique)
      else Raise ValueError
  | _ => Raise ValueError   (* the unpacking of a row of another length *)
  end.

Definition BitstampParser_parse_file (_unique : Z)
    (rows : list (list string)) : Result (list Transaction * Z) :=
  CsvParser_parse_file BitstampParser_parse_row _unique rows.

End BitstampParser.

(** * The vocabulary of the statements *)

(** The roundings the specification names, on an amount [x] and a number
    of decimal places: truncation (towards zero), and rounding to the
    nearest with a tie going away from zero. *)
Definition spec_round_truncate (x : Q) (digits : Z) : Q :=
  Qred (inject_Z (Z.quot (Qnum (x * Dec.pow10 digits))
                         (Z.pos (Qden (x * Dec.pow10 digits))))
        * Dec.pow10 (- digits)).

Definition spec_round_half_up (x : Q) (digits : Z) : Q :=
  let s := (x * Dec.pow10 digits)%Q in
  let n := if Qle_bool 0 s then Qfloor (s + (1 # 2)) else Qceiling (s - (1 # 2)) in
  Qred (inject_Z n * Dec.pow10 (- digits)).

Record cmp_order {A : Type} (cmp : A -> A -> comparison) : Prop := {
  cmp_antisym : forall x y, cmp y x = CompOpp (cmp x y);
  cmp_lt_trans : forall x y z, cmp x y = Lt -> cmp y z = Lt -> cmp x z = Lt;
  cmp_eq_l : forall x y z, cmp x y = Eq -> cmp x z = cmp y z
}.

(** The two orders on lots that [Lot.__cmp__] implements. *)
Definition cmp_fifo (left right : Lot) : comparison :=
  cmp_or (cmp_time (lot_timestamp left) (lot_timestamp right))
         (Transaction_cmp (lot_transaction left) (lot_transaction right)).

Definition cmp_lifo (left right : Lot) : comparison :=
  cmp_or (cmp_time (lot_timestamp right) (lot_timestamp left))
         (Transaction_cmp (lot_transaction left) (lot_transaction right)).

Definition sum_btc (lots : list Lot) : Q :=
  foldr (fun l acc => lot_btc l + acc)%Q 0%Q lots.

Definition sum_usd (lots : list Lot) : Q :=
  foldr (fun l acc => lot_usd l + acc)%Q 0%Q lots.


Definition lots_positive (lots : list Lot) : Prop :=
  Forall (fun l => 0 < lot_btc l)%Q lots.

(** The order that a method puts on the lots, when it has one. *)
Definition method_order (method : string)
  : option (Lot -> Lot -> comparison) :=
  if String.eqb method "fifo" then Some cmp_fifo
  else if String.eqb method "lifo" then Some cmp_lifo
  else None.

(** "Less than" as [heapq.cmp_lt] computes it from a three-way
    comparison. *)
Definition ltb_of (cmp : Lot -> Lot -> comparison) (x y : Lot) : bool :=
  match cmp y x with
  | Gt => true
  | _ => false
  end.

(** The ledger after each transaction that [ledger_loop] processes. *)
Fixpoint ledger_states (method : string) (feed : list string)
    (st : Ledger) (all : list Transaction) : list Ledger :=
  match all with
  | [] => []
  | t :: rest =>
      match ledger_step method feed st t with
      | Raise _ => []
      | Ok (st', _) => st' :: ledger_states method feed st' rest
      end
  end.

(** The heaps that [class Heap] can hold: the empty one and what [push]
    and [pop] make of one. *)
Inductive heap_reachable (method : string) : list Lot -> Prop :=
| reach_empty : heap_reachable method []
| reach_push h item h' :
    heap_reachable method h -> Heap_push method h item = Ok h' ->
    heap_reachable method h'
| reach_pop h item h' :
    heap_reachable method h -> Heap_pop method h = Ok (item, h') ->
    heap_reachable method h'.

(** [lot] goes before [other]: its time stamp is not after (under [fifo];
    not before, under [lifo]) that of [other], and with equal time stamps
    its transaction does not compare greater (time stamp, then id). *)
Definition goes_first (method : string) (lot other : Lot) : Prop :=
  (method = "fifo" ->
   cmp_time (lot_timestamp lot) (lot_timestamp other) <> Gt) /\
  (method = "lifo" ->
   cmp_time (lot_timestamp lot) (lot_timestamp other) <> Lt) /\
  (lot_timestamp lot = lot_timestamp other ->
   Transaction_cmp (lot_transaction lot) (lot_transaction other) <> Gt).

(** The formula of the specification: [-price_used * |btc|]. *)
Definition spec_fiat_value (price_used btc : Q) : Q :=
  (- price_used * Qabs btc)%Q.

(** The price that values a deposit or withdrawal: its own when that is
    present and not zero, the oracle's otherwise. *)
Definition price_used (t : Transaction) (market : Decimal) : Decimal :=
  match price t with
  | Some p => if Qeq_bool p 0 then market else p
  | None => market
  end.

(** No two transactions of the collection compare equal. *)
Fixpoint keys_distinct (l : list Transaction) : Prop :=
  match l with
  | [] => True
  | x :: r => (forall y, In y r -> Transaction_cmp x y <> Eq) /\ keys_distinct r
  end.

(** [x == y] on transactions. *)
Definition keq (x y : Transaction) : bool :=
  match Transaction_cmp x y with
  | Eq => true
  | _ => false
  end.

(** [x] compares equal to one of [removed]. *)
Definition gone (removed : list Transaction) (x : Transaction) : bool :=
  existsb (keq x) removed.

(** [x] is indexed in [deposits] under the key [k]. *)
Definition is_deposit_of (k : Decimal) (x : Transaction) : bool :=
  match type x, btc x with
  | deposit, Some b => Dec.truthy b && Dec.eqb b k
  | _, _ => false
  end.





(** Each lot of the list goes before all those after it. *)
Fixpoint in_order (method : string) (l : list Lot) : Prop :=
  match l with
  | [] => True
  | x :: r => (forall y, y ∈ r -> goes_first method x y) /\ in_order method r
  end.

(** Is the event a match? *)
Definition is_match (e : MatchEvent) : bool :=
  match e with
  | ev_match _ _ => true
  | ev_no_match _ _ => false
  end.

(** A line made of whitespace only, such as the empty line of a file. *)
Definition blank_line (line : string) : Prop :=
  line <> EmptyString /\
  Forall (fun c => Str.is_space c = true) (Str.chars line).

(** Parsing the rows of a list one after the other. *)
Fixpoint parse_each (parse_row : Z -> list string ->
                                 Result (option Transaction * Z))
    (_unique : Z) (rows : list (list string)) : Result (list Transaction * Z) :=
  match rows with
  | [] => Ok ([], _unique)
  | row :: rest =>
      let* (transaction, _unique) := parse_row _unique row in
      let* (ts, _unique) := parse_each parse_row _unique rest in
      Ok (match transaction with Some t => t :: ts | None => ts end, _unique)
  end.

(** The ids that [unique] hands out from a counter value on. *)
Fixpoint fresh_ids (_unique : Z) (n : nat) : list string :=
  match n with
  | O => []
  | S n => fst (unique _unique) :: fresh_ids (snd (unique _unique)) n
  end.

(** No two transactions of the list belong to the same event: they differ
    in their parser or in their id. *)
Fixpoint single_rows (all : list Transaction) : Prop :=
  match all with
  | [] => True
  | x :: r => (forall y, In y r -> same_event x y = false) /\ single_rows r
  end.

(** The last value of an attribute that is truthy among the members of a
    group, [start] when there is none. *)
Definition last_truthy (get : Transaction -> option Decimal)
    (start : option Decimal) (transactions : list Transaction)
  : option Decimal :=
  default start
    (last (List.filter truthy_opt (map get transactions))).

(** Year, month, day and time of day as the calendar has them. *)
Definition calendar_time (t : struct_time) : Prop :=
  (1000 <= tm_year t <= 9999)%Z /\ (1 <= tm_mon t <= 12)%Z /\
  (1 <= tm_mday t <= 31)%Z /\ (0 <= tm_hour t <= 23)%Z /\
  (0 <= tm_min t <= 59)%Z /\ (0 <= tm_sec t <= 61)%Z.

(** The same calendar day. *)
Definition same_day (a b : struct_time) : Prop :=
  tm_year a = tm_year b /\ tm_mon a = tm_mon b /\ tm_mday a = tm_mday b.

(** A row of a price feed in the second layout: its time, and the digits
    of its price before and after the decimal point. *)
Record PriceRow : Type := mkPriceRow {
  pr_time : struct_time;
  pr_int : list ascii;
  pr_frac : list ascii
}.

(** Decimal digits only. *)
Definition all_digits (l : list ascii) : Prop :=
  Forall (fun c => Str.is_digit c = true) l.

Definition well_formed_row (r : PriceRow) : Prop :=
  calendar_time (pr_time r) /\ pr_int r <> [] /\
  all_digits (pr_int r) /\ all_digits (pr_frac r).

(** The number that the digits of the price denote. *)
Definition pr_value (r : PriceRow) : Decimal :=
  Qred (inject_Z (Str.nat_of_digits (pr_int r ++ pr_frac r))
        * Dec.pow10 (- Z.of_nat (length (pr_frac r)))).

(** The line of the feed for a row: [dd/mm/yyyy hh:mm:ss,price] and the
    newline. *)
Definition blockchain_line (r : PriceRow) : string :=
  let t := pr_time r in
  Str.of_chars
    (Str.chars (pad2 (tm_mday t)) ++ "/"%char ::
     Str.chars (pad2 (tm_mon t)) ++ "/"%char ::
     Str.chars (string_of_Z (tm_year t)) ++ " "%char ::
     Str.chars (pad2 (tm_hour t)) ++ ":"%char ::
     Str.chars (pad2 (tm_min t)) ++ ":"%char ::
     Str.chars (pad2 (tm_sec t)) ++ ","%char ::
     pr_int r ++ "."%char :: pr_frac r ++ ["010"%char]).

(** The table that the rows of a feed describe: for each day, the price
    of its last row. *)
Definition price_table (rows : list PriceRow) : gmap string Decimal :=
  fold_left (fun m r => <[strftime_Ymd (pr_time r) := pr_value r]> m) rows ∅.

(** * Inputs of the worked runs *)

Definition lot_2btc_25c : Lot :=
  mkLot (mk_struct_time 2013 10 27 0 0 0 6 300 (-1)) 2 (1 # 4) (1 # 8)
    (mkTransaction (mk_struct_time 2013 10 27 0 0 0 6 300 (-1)) trade
       (Some 2%Q) (Some (-0.25)%Q) (Some (-0.125)%Q)
       (Some 0%Q) (Some 0%Q) None "unique:1" None).

(** Days of October 2013. *)
Definition day (d : Z) : struct_time :=
  mk_struct_time 2013 10 d 0 0 0 (d mod 7) (273 + d) (-1).

Definition a_trade (d : Z) (b u : Decimal) (ident : string) : Transaction :=
  mkTransaction (day d) trade (Some b) (Some u) (Some (Qred (u / b)))
    (Some 0%Q) (Some 0%Q) None ident (Some BitstampParser).

(** A deposit or withdrawal as the parsers build it: [usd] and [price]
    are zero. *)
Definition a_transfer (d : Z) (ty : TxType) (b : Decimal) (ident : string)
  : Transaction :=
  mkTransaction (day d) ty (Some b) (Some 0%Q) (Some 0%Q)
    (Some 0%Q) (Some 0%Q) None ident (Some BitstampParser).

Definition buy_1_for_100 : Transaction := a_trade 1 1 (-100) "unique:1".
Definition buy_1_for_200 : Transaction := a_trade 2 1 (-200) "unique:2".

Definition lot_of (t : Transaction) (b u : Decimal) : Lot :=
  mkLot (timestamp t) b u (Qred (u / b)) t.

(** The ledger and the reports after the two purchases, under FIFO and
    with an empty price feed. *)
Definition reports_two_lots : list Report :=
  fst (ledger_loop "fifo" [] (Ledger_init ∅) [buy_1_for_100; buy_1_for_200]).


Definition withdraw_1 : Transaction := a_transfer 5 withdraw (-1) "unique:5".

Definition newline : string := String "010"%char EmptyString.

(** A feed in the first layout: the header line, then one line per day. *)
Definition bitcoinaverage_feed : list string :=
  [String.append "datetime,high,low,average,volume" newline;
   String.append "2013-10-27 00:00:00,190,180,185,1000" newline].

(** Seconds since the epoch of a broken-down time, in a time zone that is
    UTC all year. *)
Definition mktime_utc (t : struct_time) : Z :=
  let y := (if tm_mon t <=? 2 then tm_year t - 1 else tm_year t)%Z in
  let era := (y / 400)%Z in
  let yoe := (y - era * 400)%Z in
  let mp := (if tm_mon t <=? 2 then tm_mon t + 9 else tm_mon t - 3)%Z in
  let doy := ((153 * mp + 2) / 5 + tm_mday t - 1)%Z in
  let doe := (yoe * 365 + yoe / 4 - yoe / 100 + doy)%Z in
  let days := (era * 146097 + doe - 719468)%Z in
  (days * 86400 + tm_hour t * 3600 + tm_min t * 60 + tm_sec t)%Z.

(** One history file, the asset ledger of MtGox without its fiat ledger:
    a single deposit of 1. *)
Definition only_mtgox (p : ParserKind) (file : string) : bool :=
  ParserKind_eqb p MtGoxParser.

Definition mtgox_btc_rows (file : string) : list MtGoxRow :=
  [mkMtGoxRow (day 1) "deposit" "" 1].

Definition no_other_file (p : ParserKind) (file : string) (_unique : Z)
  : Result (list Transaction * Z) := Ok ([], _unique).

Definition args_btc_only : Args := mkArgs ["mtgox_BTC.csv"] 24 "fifo".

(** A time of day, on a day of October 2013. *)
Definition at_hour (d h : Z) : struct_time :=
  mk_struct_time 2013 10 d h 0 0 (d mod 7) (273 + d) (-1).

Definition a_transfer_at (d h : Z) (ty : TxType) (b : Decimal)
    (ident : string) : Transaction :=
  mkTransaction (at_hour d h) ty (Some b) (Some 0%Q) (Some 0%Q)
    (Some 0%Q) (Some 0%Q) None ident (Some BitstampParser).

Definition deposit_10h : Transaction := a_transfer_at 5 10 deposit 1 "unique:1".
Definition withdraw_12h : Transaction :=
  a_transfer_at 5 12 withdraw (-1) "unique:2".
Definition withdraw_14h : Transaction :=
  a_transfer_at 5 14 withdraw (-1) "unique:3".
Definition withdraw_next_day : Transaction :=
  a_transfer_at 6 10 withdraw (-1) "unique:4".

(** The two lots of the purchases above, as a FIFO heap, and the first
    of them after the sale of one half. *)
Definition lots_two : list Lot :=
  [lot_of buy_1_for_100 1 100; lot_of buy_1_for_200 1 200].

Definition half_lot_100 : Lot := lot_of buy_1_for_100 (1 # 2) 50.




(** The rows of one MtGox purchase: 2 BTC in the asset ledger, 200 USD
    in the fiat ledger, and a second row of the asset ledger. *)
Definition mtgox_half_btc : Transaction :=
  mkTransaction (day 1) trade (Some 2%Q) (Some 0%Q) (Some 0%Q)
    (Some 0%Q) (Some 0%Q) (Some "BTC bought: [tid:7]") "tid:7"
    (Some MtGoxParser).

Definition mtgox_half_usd : Transaction :=
  mkTransaction (day 1) trade (Some 0%Q) (Some (-200)%Q) (Some 0%Q)
    (Some 0%Q) (Some 0%Q) (Some "BTC bought: [tid:7]") "tid:7"
    (Some MtGoxParser).

Definition mtgox_fee_row : Transaction :=
  mkTransaction (day 1) fee (Some 0%Q) (Some 0%Q) (Some 0%Q)
    (Some 0%Q) (Some (1 # 100)%Q) (Some "BTC bought: [tid:7] (fee)") "tid:7"
    (Some MtGoxParser).

(** A Bitstamp file: the header, a deposit, an empty line and a trade. *)
Definition strptime_october (s : string) : option struct_time :=
  if String.eqb s "2013-10-01 00:00:00" then Some (day 1)
  else if String.eqb s "2013-10-02 00:00:00" then Some (day 2)
  else None.

Definition bitstamp_rows : list (list string) :=
  [["Type"; "Datetime"; "BTC"; "USD"; "BTC Price"; "FEE"];
   ["0"; "2013-10-01 00:00:00"; "1.5"; "0"; "0"; "0"];
   [];
   ["2"; "2013-10-02 00:00:00"; "1"; "-100"; "100"; "0.5"]].

Definition bitstamp_transactions : list Transaction :=
  match BitstampParser_parse_file strptime_october 0 bitstamp_rows with
  | Ok (ts, _) => ts
  | Raise _ => []
  end.

(** A run on a file that no parser recognises. *)
Definition no_parser (p : ParserKind) (file : string) : bool := false.

Definition args_notes : Args := mkArgs ["notes.txt"] 24 "fifo".

(** Two rows of a feed in the second layout. *)
Definition row_27 : PriceRow :=
  mkPriceRow (day 27) ["1"; "8"; "5"]%char ["5"; "0"]%char.

Definition row_28 : PriceRow :=
  mkPriceRow (day 28) ["1"; "9"; "0"]%char [].

(** * Properties *)


(** ** Rounding *)

Lemma round_half_even_spec (q : Q) :
  let n := Dec.round_half_even q in
  (Qabs (q - inject_Z n) <= 1 # 2)%Q /\
  (Qabs (q - inject_Z n) == 1 # 2 -> Z.even n = true)%Q.
Proof.
  unfold Dec.round_half_even.
  pose proof (Qfloor_le q) as Hlo. pose proof (Qlt_floor q) as Hhi.
  set (f := Qfloor q) in *.
  assert (inject_Z (f + 1) == inject_Z f + 1)%Q as Hf1
    by (rewrite inject_Z_plus; reflexivity).
  rewrite Hf1 in Hhi.
  destruct (Qcompare_spec (q - inject_Z f) (1 # 2)) as [He|Hl|Hg]; cbv zeta.
  - assert (Qabs (q - inject_Z f) == 1 # 2)%Q as Ha
      by (rewrite He; reflexivity).
    destruct (Z.even f) eqn:Ev.
    + split; [rewrite Ha; apply Qle_refl | intros _; exact Ev].
    + assert (q - inject_Z (f + 1) == - (1 # 2))%Q as Hn
        by (rewrite Hf1; lra).
      split.
      * rewrite Hn. discriminate.
      * intros _. rewrite Z.even_add, Ev. reflexivity.
  - assert (0 <= q - inject_Z f)%Q as H0 by lra.
    rewrite (Qabs_pos _ H0). split; [lra|].
    intros E. rewrite E in Hl. exfalso. revert Hl. apply Qlt_irrefl.
  - assert (q - inject_Z (f + 1) <= 0)%Q as H0 by (rewrite Hf1; lra).
    rewrite (Qabs_neg _ H0), Hf1. split; [lra|].
    intros E. exfalso. lra.
Qed.

(** C7 (as amended): [roundd(x, 2)] is [x] rounded to the nearest cent,
    a tie going to the even cent (round-half-even, the default of the
    decimal context): the result is a whole number [n] of cents at most
    half a cent away from [x], and [n] is even when [x] lies exactly
    halfway between two cents. *)
Theorem roundd_half_even (x u : Decimal) :
  roundd x 2 = Ok u ->
  exists n : Z,
    (u == inject_Z n / 100)%Q /\
    (Qabs (x * 100 - inject_Z n) <= 1 # 2)%Q /\
    ((Qabs (x * 100 - inject_Z n) == 1 # 2)%Q -> Z.even n = true).
Proof.
  unfold roundd.
  unfold Dec.quantize.
  change (Dec.pow10 2) with 100%Q. change (Dec.pow10 (-2)) with (1 # 100)%Q.
  destruct (round_half_even_spec (x * 100)) as [H1 H2].
  set (c := Dec.round_half_even (x * 100)) in *.
  destruct (Z.leb _ _); [discriminate|]. intros E.
  exists c. split; [|split; assumption].
  injection E as <-. rewrite Qred_correct. field.
Qed.

Lemma roundd_half_even_witness :
  roundd (1 # 8) 2 = Ok (3 # 25)%Q /\
  exists n : Z,
    ((3 # 25) == inject_Z n / 100)%Q /\
    (Qabs ((1 # 8) * 100 - inject_Z n) <= 1 # 2)%Q /\
    ((Qabs ((1 # 8) * 100 - inject_Z n) == 1 # 2)%Q -> Z.even n = true).
Proof.
  split; [reflexivity|].
  apply (roundd_half_even (1 # 8) (3 # 25)). reflexivity.
Defined.

(** C7 (as stated) fails: 12.5 cents rounds to 12 cents, where rounding
    half up gives 13; 12.9 cents rounds to 13 cents, where truncation gives
    12.  Selling 1 of a lot of 2 bought for 0.25 removes a cost basis of
    0.12 and leaves 0.13. *)
Lemma roundd_not_truncate_nor_half_up :
  roundd 0.125 2 = Ok (Qred 0.12%Q) /\
  spec_round_half_up 0.125 2 = Qred 0.13%Q /\
  roundd 0.129 2 = Ok (Qred 0.13%Q) /\
  spec_round_truncate 0.129 2 = Qred 0.12%Q /\
  Lot_init (mk_struct_time 2013 10 27 0 0 0 6 300 (-1)) 2 (1 # 4)
    (lot_transaction lot_2btc_25c) = Ok lot_2btc_25c /\
  (let* r := Lot_sell lot_2btc_25c 1 in Ok (lot_usd <$> r))
    = Ok (Some (Qred 0.13%Q)).
Proof. vm_compute. repeat split; reflexivity. Qed.

(** ** The Transaction constructor *)

(** C10: construction always succeeds (in particular it never divides by
    zero); the price is [usd / btc] (rounded to the context precision)
    exactly when [btc] and [usd] are both present and nonzero and no price
    was supplied, and the supplied price (possibly [None]) in every other
    case. *)
Theorem Transaction_init_price (_unique : Z) (ts : struct_time) (ty : TxType)
    (b u p fu fb : option Decimal) (note ident : option string) :
  exists t _unique',
    Transaction_init _unique ts ty b u p fu fb note ident = Ok (t, _unique') /\
    btc t = b /\ usd t = u /\
    price t =
      match b, u, p with
      | Some bv, Some uv, None =>
          if Qeq_bool bv 0 || Qeq_bool uv 0 then None
          else Some (Dec.ctx_round (uv / bv))
      | _, _, _ => p
      end.
Proof.
  unfold Transaction_init, decimal_or_none, Dec.truthy, Dec.div.
  destruct ident, b as [bv|], u as [uv|], p as [pv|]; simpl; eauto 10;
    destruct (Qeq_bool bv 0); simpl; eauto 10;
    destruct (Qeq_bool uv 0); simpl; eauto 10.
Qed.

(** A zero or missing amount and no explicit price leave [price = None]. *)
Example Transaction_init_deposit :
  (let* r := Transaction_init 0 (mk_struct_time 2013 10 27 0 0 0 6 300 (-1))
               deposit (Some 1%Q) (Some 0%Q) None (Some 0%Q) (Some 0%Q)
               None None in
   Ok (price (fst r), id (fst r), snd r))
  = Ok (None, "unique:1", 1%Z).
Proof. reflexivity. Qed.

(** ** Comparison functions

    A three-way comparison that behaves like [cmp] on a totally preordered
    type: swapping the arguments negates the result, "less" is transitive
    and items that compare equal compare alike with everything. *)

Section CmpOrder.

Context {A : Type} (cmp : A -> A -> comparison) (O : cmp_order cmp).

Lemma cmp_refl x : cmp x x = Eq.
Proof.
  pose proof (cmp_antisym cmp O x x) as H. destruct (cmp x x); done.
Qed.

Lemma cmp_eq_r x y z : cmp x y = Eq -> cmp z x = cmp z y.
Proof.
  intros E. rewrite (cmp_antisym cmp O x z), (cmp_antisym cmp O y z).
  f_equal. by apply (cmp_eq_l cmp O).
Qed.

Lemma cmp_eq_sym x y : cmp x y = Eq -> cmp y x = Eq.
Proof. intros E. rewrite (cmp_antisym cmp O x y), E. done. Qed.

Lemma cmp_gt_lt x y : cmp x y = Gt <-> cmp y x = Lt.
Proof.
  rewrite (cmp_antisym cmp O x y). destruct (cmp x y); simpl; split; done.
Qed.

(** "Not greater" is transitive. *)
Lemma cmp_le_trans x y z : cmp x y <> Gt -> cmp y z <> Gt -> cmp x z <> Gt.
Proof.
  intros Hxy Hyz.
  destruct (cmp x y) eqn:Exy; [| |done].
  - by rewrite (cmp_eq_l cmp O x y z Exy).
  - destruct (cmp y z) eqn:Eyz; [| |done].
    + by rewrite <- (cmp_eq_r y z x Eyz), Exy.
    + by rewrite (cmp_lt_trans cmp O x y z Exy Eyz).
Qed.

End CmpOrder.

Lemma cmp_order_Z : cmp_order cmp_Z.
Proof.
  unfold cmp_Z. split.
  - intros x y. apply Z.compare_antisym.
  - intros x y z. rewrite !Z.compare_lt_iff. lia.
  - intros x y z ->%Z.compare_eq. done.
Qed.

Lemma cmp_order_str : cmp_order cmp_str.
Proof.
  unfold cmp_str. split.
  - intros x y. apply String.compare_antisym.
  - intros x y z H1 H2.
    apply OrderedTypeEx.String_as_OT.cmp_lt.
    eapply OrderedTypeEx.String_as_OT.lt_trans;
      by apply OrderedTypeEx.String_as_OT.cmp_lt.
  - intros x y z ->%String.compare_eq_iff. done.
Qed.

Lemma cmp_order_or {A} (c1 c2 : A -> A -> comparison) :
  cmp_order c1 -> cmp_order c2 ->
  cmp_order (fun x y => cmp_or (c1 x y) (c2 x y)).
Proof.
  intros O1 O2. split.
  - intros x y. rewrite (cmp_antisym c1 O1 x y), (cmp_antisym c2 O2 x y).
    by destruct (c1 x y).
  - intros x y z. unfold cmp_or.
    destruct (c1 x y) eqn:E1; [|  |done].
    + rewrite (cmp_eq_l c1 O1 x y z E1). intros H2.
      destruct (c1 y z) eqn:E2; [|done|done].
      intros H3. by apply (cmp_lt_trans c2 O2 x y z).
    + intros _. destruct (c1 y z) eqn:E2; [| |done].
      * intros _. by rewrite <- (cmp_eq_r c1 O1 y z x E2), E1.
      * intros _. by rewrite (cmp_lt_trans c1 O1 x y z E1 E2).
  - intros x y z. unfold cmp_or.
    destruct (c1 x y) eqn:E1; [|done|done].
    intros E2. by rewrite (cmp_eq_l c1 O1 x y z E1), (cmp_eq_l c2 O2 x y z E2).
Qed.

Lemma cmp_order_proj {A B} (f : A -> B) (c : B -> B -> comparison) :
  cmp_order c -> cmp_order (fun x y => c (f x) (f y)).
Proof.
  intros O. split; intros; eauto using cmp_antisym, cmp_lt_trans, cmp_eq_l.
Qed.

Lemma cmp_order_flip {A} (c : A -> A -> comparison) :
  cmp_order c -> cmp_order (fun x y => c y x).
Proof.
  intros O. split.
  - intros x y. apply (cmp_antisym c O).
  - intros x y z H1 H2.
    apply (cmp_gt_lt c O). apply (cmp_gt_lt c O) in H1, H2.
    rewrite (cmp_antisym c O z x).
    rewrite (cmp_antisym c O) in H1. rewrite (cmp_antisym c O) in H2.
    destruct (c y x) eqn:E1; try done. destruct (c z y) eqn:E2; try done.
    by rewrite (cmp_lt_trans c O z y x E2 E1).
  - intros x y z E. apply (cmp_eq_r c O), (cmp_eq_sym c O), E.
Qed.

Lemma cmp_order_time : cmp_order cmp_time.
Proof.
  unfold cmp_time.
  repeat (apply (cmp_order_or (fun a b => cmp_Z (_ a) (_ b)));
          [apply (cmp_order_proj _ cmp_Z), cmp_order_Z|]).
  apply (cmp_order_proj _ cmp_Z), cmp_order_Z.
Qed.

Lemma cmp_order_Transaction : cmp_order Transaction_cmp.
Proof.
  unfold Transaction_cmp.
  apply (cmp_order_or (fun l r => cmp_time (timestamp l) (timestamp r))
                      (fun l r => cmp_str (id l) (id r)));
    [apply (cmp_order_proj timestamp), cmp_order_time
    |apply (cmp_order_proj id), cmp_order_str].
Qed.

Lemma cmp_order_fifo : cmp_order cmp_fifo.
Proof.
  apply (cmp_order_or
           (fun l r => cmp_time (lot_timestamp l) (lot_timestamp r))
           (fun l r => Transaction_cmp (lot_transaction l) (lot_transaction r)));
    [apply (cmp_order_proj lot_timestamp), cmp_order_time
    |apply (cmp_order_proj lot_transaction), cmp_order_Transaction].
Qed.

Lemma cmp_order_lifo : cmp_order cmp_lifo.
Proof.
  apply (cmp_order_or
           (fun l r => cmp_time (lot_timestamp r) (lot_timestamp l))
           (fun l r => Transaction_cmp (lot_transaction l) (lot_transaction r)));
    [apply (cmp_order_flip
              (fun l r => cmp_time (lot_timestamp l) (lot_timestamp r))),
       (cmp_order_proj lot_timestamp), cmp_order_time
    |apply (cmp_order_proj lot_transaction), cmp_order_Transaction].
Qed.

(** ** [heapq]: the operations permute the items *)

Lemma insert_Permutation_cons {A} (l : list A) i x :
  i < length l -> <[i:=x]> l ≡ₚ x :: delete i l.
Proof.
  revert i. induction l as [|a l IH]; intros [|i] Hi; simpl in *; try lia.
  - done.
  - rewrite (IH i) by lia. apply Permutation_swap.
Qed.

Lemma insert_swap_Permutation {A} (l : list A) i j x y :
  i <> j -> i < length l -> j < length l ->
  <[i:=x]> (<[j:=y]> l) ≡ₚ <[i:=y]> (<[j:=x]> l).
Proof.
  revert i j. induction l as [|a l IH]; intros [|i] [|j] Hne Hi Hj;
    simpl in *; try lia.
  - rewrite !insert_Permutation_cons by lia. apply Permutation_swap.
  - rewrite !insert_Permutation_cons by lia. apply Permutation_swap.
  - f_equiv. apply IH; lia.
Qed.

Section HeapqPerm.

Context {A : Type}.
Variable cmp_lt : A -> A -> Result bool.

Lemma getitem_Some (h : list A) i x : getitem h i = Ok x <-> h !! i = Some x.
Proof. unfold getitem. destruct (h !! i); split; congruence. Qed.

Lemma setitem_Ok (h : list A) i x h' :
  setitem h i x = Ok h' <-> i < length h /\ h' = <[i:=x]> h.
Proof.
  unfold setitem. case_decide; split; try congruence.
  - intros [= <-]. done.
  - intros [_ ->]. done.
  - intros [? _]. done.
Qed.

(** The loop of [_siftdown] ends with the items of the heap in which
    [newitem] sits at [pos]. *)
Lemma siftdown_loop_Permutation (heap : list A) startpos pos newitem heap' :
  siftdown_loop cmp_lt heap startpos pos newitem = Ok heap' ->
  heap' ≡ₚ <[pos:=newitem]> heap.
Proof.
  funelim (siftdown_loop cmp_lt heap startpos pos newitem);
    try discriminate.
  - intros [_ ->]%setitem_Ok. done.
  - intros [_ ->]%setitem_Ok. done.
  - intros E. rewrite (H _ E).
    apply setitem_Ok in Heq as [Hpos ->].
    apply getitem_Some in Heq1.
    assert ((pos - 1) / 2 < pos) as Hlt
      by (apply Nat.Div0.div_lt_upper_bound; lia).
    rewrite insert_swap_Permutation
      by (rewrite ?length_insert; lia || (apply lookup_lt_Some in Heq1; lia)).
    rewrite list_insert_id; [done|].
    by rewrite list_lookup_insert_ne by lia.
Qed.

Lemma siftdown_Permutation (heap : list A) startpos pos heap' :
  siftdown cmp_lt heap startpos pos = Ok heap' -> heap' ≡ₚ heap.
Proof.
  unfold siftdown. destruct (getitem heap pos) as [x|] eqn:E; [|done].
  simpl. intros ->%siftdown_loop_Permutation.
  apply getitem_Some in E. by rewrite list_insert_id.
Qed.

(** The loop of [_siftup] leaves a hole at the returned position: with
    any item put there, the heap has the items it had with that item at
    [pos]. *)
Lemma siftup_loop_Permutation (heap : list A) endpos pos heap' pos' v :
  siftup_loop cmp_lt heap endpos pos = Ok (heap', pos') ->
  endpos = length heap -> pos < length heap ->
  pos' < length heap' /\ <[pos':=v]> heap' ≡ₚ <[pos:=v]> heap.
Proof.
  funelim (siftup_loop cmp_lt heap endpos pos); try discriminate.
  - intros [= <- <-] -> ?. split; [lia|done].
  - intros E -> _.
    apply setitem_Ok in Heq as [Hpos ->].
    apply getitem_Some in Heq0.
    set (c := if b then 2 * pos + 1 + 1 else 2 * pos + 1) in *.
    assert (pos < c) as Hc by (subst c; destruct b; lia).
    pose proof (lookup_lt_Some _ _ _ Heq0) as Hcl.
    destruct (H _ _ v E) as [Hp' ->];
      [by rewrite length_insert|by rewrite length_insert|].
    split; [done|].
    rewrite insert_swap_Permutation by (rewrite ?length_insert; lia).
    rewrite (list_insert_id _ c child); [done|].
    by rewrite list_lookup_insert_ne by lia.
Qed.

Lemma siftup_Permutation (heap : list A) pos heap' :
  siftup cmp_lt heap pos = Ok heap' -> heap' ≡ₚ heap.
Proof.
  unfold siftup.
  destruct (getitem heap pos) as [x|] eqn:E; [|done]. simpl.
  destruct (siftup_loop _ _ _ _) as [[h1 p1]|] eqn:E1; [|done]. simpl.
  destruct (setitem h1 p1 x) as [h2|] eqn:E2; [|done]. simpl.
  intros ->%siftdown_Permutation.
  apply setitem_Ok in E2 as [_ ->].
  apply getitem_Some in E.
  destruct (siftup_loop_Permutation _ _ _ _ _ x E1 eq_refl) as [_ ->];
    [by eapply lookup_lt_Some|]. by rewrite list_insert_id.
Qed.

Lemma heappush_Permutation (heap : list A) item heap' :
  heappush cmp_lt heap item = Ok heap' -> heap' ≡ₚ item :: heap.
Proof.
  unfold heappush. intros ->%siftdown_Permutation.
  by rewrite Permutation_app_comm.
Qed.

Lemma list_pop_Ok (heap : list A) x rest :
  list_pop heap = Ok (x, rest) <-> heap = rest ++ [x].
Proof.
  unfold list_pop. destruct (last heap) as [y|] eqn:E.
  - apply last_Some in E as [l' ->].
    rewrite length_app. simpl.
    replace (length l' + 1 - 1) with (length l') by lia.
    rewrite take_app_length. split.
    + by intros [= <- <-].
    + by intros [<- <-]%app_inj_tail.
  - apply last_None in E as ->. split; [done|].
    by intros ?%app_cons_not_nil.
Qed.

Lemma heappop_Permutation (heap : list A) item heap' :
  heappop cmp_lt heap = Ok (item, heap') -> heap ≡ₚ item :: heap'.
Proof.
  unfold heappop.
  destruct (list_pop heap) as [[lastelt rest]|] eqn:E; [|done]. simpl.
  apply list_pop_Ok in E as ->.
  destruct rest as [|y rest].
  - by intros [= <- <-].
  - simpl. destruct (siftup _ _ _) as [h3|] eqn:E3; [|done]. simpl.
    intros [= <- <-]. apply siftup_Permutation in E3. rewrite E3.
    simpl. f_equiv. symmetry. apply Permutation_cons_append.
Qed.

Lemma heappop_nil item heap' : heappop cmp_lt [] <> Ok (item, heap').
Proof. done. Qed.

End HeapqPerm.

(** ** [heapq]: the heap invariant *)

Lemma parent_lt i : 0 < i -> (i - 1) / 2 < i.
Proof. intros. apply Nat.Div0.div_lt_upper_bound; lia. Qed.

Lemma parent_child i c : (c - 1) / 2 = i -> 0 < c -> c = 2 * i + 1 \/ c = 2 * i + 2.
Proof.
  intros <- Hc.
  pose proof (Nat.div_mod_eq (c - 1) 2) as H.
  pose proof (Nat.mod_upper_bound (c - 1) 2). lia.
Qed.

Section HeapqOrder.

Context {A : Type}.
Variable cmp_lt : A -> A -> Result bool.
Variable ltb : A -> A -> bool.

(** The comparison never raises and is a strict weak order. *)
Hypothesis cmp_lt_ltb : forall x y, cmp_lt x y = Ok (ltb x y).
Hypothesis ltb_asym : forall x y, ltb x y = true -> ltb y x = false.
Hypothesis ltb_le_trans :
  forall x y z, ltb y x = false -> ltb z y = false -> ltb z x = false.

(** [x <= y]: [y] is not less than [x]. *)
Definition le_of (x y : A) : Prop := ltb y x = false.

(** The item at [i] is not less than its parent. *)
Definition edge_ok (h : list A) (i : nat) : Prop :=
  forall x p, h !! i = Some x -> h !! ((i - 1) / 2) = Some p -> le_of p x.

Definition heap_ok (h : list A) : Prop := forall i, 0 < i -> edge_ok h i.

Lemma heap_ok_root (h : list A) r x :
  heap_ok h -> h !! 0 = Some r -> x ∈ h -> le_of r x.
Proof using ltb_asym ltb_le_trans.
  intros Hh Hr [i Hi]%list_elem_of_lookup. revert x Hi.
  induction (lt_wf i) as [i _ IH]. intros x Hi.
  destruct (decide (i = 0)) as [->|Hne].
  - assert (x = r) as -> by congruence.
    unfold le_of. destruct (ltb r r) eqn:E; [|done].
    by rewrite (ltb_asym _ _ E) in E.
  - pose proof (parent_lt i ltac:(lia)) as Hp.
    destruct (lookup_lt_is_Some_2 h ((i - 1) / 2)) as [p Hpv];
      [apply lookup_lt_Some in Hi; lia|].
    unfold le_of. eapply ltb_le_trans.
    + apply (IH _ Hp p Hpv).
    + apply (Hh i ltac:(lia) x p Hi Hpv).
Qed.

(** The state of the loop of [_siftdown]: with [newitem] at [pos], every
    item but the one at [pos] is in order with its parent, and the
    children of [pos] are in order with the parent of [pos]. *)
Definition down_inv (heap : list A) (pos : nat) (newitem : A) : Prop :=
  pos < length heap /\
  (forall i, 0 < i -> i <> pos -> edge_ok (<[pos:=newitem]> heap) i) /\
  (forall c x g, 0 < pos -> (c - 1) / 2 = pos -> 0 < c ->
     heap !! c = Some x -> heap !! ((pos - 1) / 2) = Some g -> le_of g x).

Lemma siftdown_loop_heap_ok (heap : list A) startpos pos newitem :
  startpos = 0 -> down_inv heap pos newitem ->
  exists heap',
    siftdown_loop cmp_lt heap startpos pos newitem = Ok heap' /\
    heap_ok heap'.
Proof using cmp_lt_ltb ltb_asym ltb_le_trans.
  funelim (siftdown_loop cmp_lt heap startpos pos newitem);
    intros -> (Hpos & Hedges & Hgrand);
    try match goal with
        | l : 0 < ?pos |- _ => pose proof (parent_lt pos l)
        end;
    try match goal with
        | Hc : cmp_lt _ _ = _ |- _ =>
            rewrite cmp_lt_ltb in Hc;
            first [discriminate Hc | injection Hc as Hc]
        end;
    repeat match goal with
        | H : getitem _ _ = Ok _ |- _ => apply getitem_Some in H
        | H : setitem _ _ _ = Ok _ |- _ => apply setitem_Ok in H as [? ->]
        | H : getitem ?h ?i = Raise _ |- _ =>
            exfalso; unfold getitem in H;
            destruct (lookup_lt_is_Some_2 h i) as [? Hp]; [lia|];
            by rewrite Hp in H
        | H : setitem ?h ?i _ = Raise _ |- _ =>
            exfalso; unfold setitem in H; by rewrite decide_True in H by lia
        end.
  - (* at the root *)
    unfold setitem. rewrite decide_True by done.
    eexists; split; [done|]. intros i Hi. apply Hedges; lia.
  - (* newitem is not less than the parent: it stays at pos *)
    unfold setitem. rewrite decide_True by done.
    eexists; split; [done|]. intros i Hi.
    destruct (decide (i = pos)) as [->|Hne]; [|by apply Hedges].
    intros x p. rewrite list_lookup_insert_eq by done.
    rewrite list_lookup_insert_ne by lia.
    intros [= <-] Hp. unfold le_of. congruence.
  - (* newitem is less than the parent: the parent moves down *)
    apply H; [done|]. clear H Heqcall.
    set (pp := (pos - 1) / 2) in *.
    assert (le_of newitem parent) as Hnp by (by apply ltb_asym).
    split; [rewrite length_insert; lia|]. split.
    + intros i Hi Hne x p.
      destruct (decide (i = pos)) as [->|Hne'].
      * rewrite list_lookup_insert_ne by lia.
        rewrite list_lookup_insert_eq by done. intros [= <-].
        fold pp. rewrite list_lookup_insert_eq
          by (rewrite length_insert; lia).
        by intros [= <-].
      * rewrite !list_lookup_insert_ne by lia. intros Hx.
        destruct (decide ((i - 1) / 2 = pp)) as [Ep|Np].
        { rewrite Ep. rewrite list_lookup_insert_eq
            by (rewrite length_insert; lia).
          intros [= <-]. unfold le_of. eapply ltb_le_trans; [exact Hnp|].
          apply (Hedges i Hi Hne' x parent).
          - by rewrite list_lookup_insert_ne by lia.
          - rewrite Ep. by rewrite list_lookup_insert_ne by lia. }
        rewrite list_lookup_insert_ne by lia.
        destruct (decide ((i - 1) / 2 = pos)) as [Ec|Nc].
        { rewrite Ec. rewrite list_lookup_insert_eq by done.
          intros [= <-]. by apply (Hgrand i x parent). }
        rewrite list_lookup_insert_ne by lia. intros Hp.
        apply (Hedges i Hi Hne' x p).
        { by rewrite list_lookup_insert_ne by lia. }
        { by rewrite list_lookup_insert_ne by lia. }
    + intros c x g Hpp Hc Hc0 Hx Hg.
      pose proof (parent_lt pp Hpp).
      rewrite list_lookup_insert_ne in Hg by lia.
      assert (le_of g parent) as Hgp.
      { apply (Hedges pp Hpp ltac:(lia) parent g);
          by rewrite list_lookup_insert_ne by lia. }
      destruct (decide (c = pos)) as [->|Hne].
      * rewrite list_lookup_insert_eq in Hx by done. congruence.
      * rewrite list_lookup_insert_ne in Hx by lia.
        unfold le_of. eapply ltb_le_trans; [exact Hgp|].
        apply (Hedges c Hc0 Hne x parent).
        { by rewrite list_lookup_insert_ne by lia. }
        { rewrite Hc. by rewrite list_lookup_insert_ne by lia. }
Qed.

Lemma heap_ok_nil : heap_ok [].
Proof. intros i _ x p Hx. done. Qed.

Lemma heappush_heap_ok (heap : list A) item :
  heap_ok heap ->
  exists heap', heappush cmp_lt heap item = Ok heap' /\ heap_ok heap'.
Proof using cmp_lt_ltb ltb_asym ltb_le_trans.
  intros Hh. unfold heappush, siftdown.
  rewrite length_app. simpl.
  replace (length heap + 1 - 1) with (length heap) by lia.
  unfold getitem. rewrite lookup_app_r, Nat.sub_diag by lia. simpl.
  apply siftdown_loop_heap_ok; [done|].
  split; [rewrite length_app; simpl; lia|]. split.
  - intros i Hi Hne x p.
    rewrite list_insert_id
      by (rewrite lookup_app_r, Nat.sub_diag by lia; done).
    intros Hx Hp.
    pose proof (parent_lt i Hi).
    destruct (decide (i < length heap)) as [Hlt|Hge].
    + rewrite lookup_app_l in Hx, Hp by lia. by apply (Hh i Hi).
    + apply lookup_lt_Some in Hx. rewrite length_app in Hx. simpl in Hx. lia.
  - intros c x g _ Hc Hc0 Hx _.
    apply lookup_lt_Some in Hx. rewrite length_app in Hx. simpl in Hx.
    destruct (parent_child _ _ Hc Hc0); lia.
Qed.

(** The state of the loop of [_siftup]: the item at [pos] is to be
    overwritten; every other item is in order with its parent unless
    that parent is [pos], and the children of [pos] are in order with
    the parent of [pos]. *)
Definition up_inv (heap : list A) (pos : nat) : Prop :=
  pos < length heap /\
  (forall i, 0 < i -> i <> pos -> (i - 1) / 2 <> pos -> edge_ok heap i) /\
  (forall c x g, 0 < pos -> (c - 1) / 2 = pos -> 0 < c ->
     heap !! c = Some x -> heap !! ((pos - 1) / 2) = Some g -> le_of g x).

Lemma pick_right_Ok (heap : list A) pos b :
  pick_right cmp_lt heap (length heap) (2 * pos + 1) = Ok b ->
  (if b then 2 * pos + 1 + 1 else 2 * pos + 1) < length heap ->
  forall l r, heap !! (2 * pos + 1) = Some l ->
              heap !! (2 * pos + 1 + 1) = Some r ->
              if b then le_of r l else le_of l r.
Proof using cmp_lt_ltb ltb_asym.
  unfold pick_right, getitem. intros Hb Hc l r Hl Hr.
  pose proof (lookup_lt_Some _ _ _ Hr).
  rewrite decide_True in Hb by lia. rewrite Hl, Hr in Hb. simpl in Hb.
  rewrite cmp_lt_ltb in Hb. simpl in Hb. injection Hb as <-.
  unfold le_of. destruct (ltb l r) eqn:E; simpl; [by apply ltb_asym|done].
Qed.

Lemma pick_right_total (heap : list A) pos :
  2 * pos + 1 < length heap ->
  exists b, pick_right cmp_lt heap (length heap) (2 * pos + 1) = Ok b /\
            (if b then 2 * pos + 1 + 1 else 2 * pos + 1) < length heap.
Proof using cmp_lt_ltb.
  intros Hlt. unfold pick_right, getitem.
  case_decide as Hr.
  - destruct (lookup_lt_is_Some_2 heap (2 * pos + 1)) as [l ->]; [lia|].
    destruct (lookup_lt_is_Some_2 heap (2 * pos + 1 + 1)) as [r ->]; [lia|].
    simpl. rewrite cmp_lt_ltb. simpl. eexists; split; [done|].
    destruct (negb _); lia.
  - eexists; split; [done|]. simpl. lia.
Qed.

Lemma siftup_loop_inv (heap : list A) endpos pos :
  endpos = length heap -> up_inv heap pos ->
  exists heap' pos',
    siftup_loop cmp_lt heap endpos pos = Ok (heap', pos') /\
    up_inv heap' pos' /\ length heap' <= 2 * pos' + 1.
Proof using cmp_lt_ltb ltb_asym ltb_le_trans.
  funelim (siftup_loop cmp_lt heap endpos pos);
    intros -> (Hpos & Hedges & Hgrand);
    try match goal with
        | l : 2 * ?pos + 1 < length ?heap |- _ =>
            destruct (pick_right_total heap pos l) as (b' & Hb' & Hc')
        end;
    try match goal with
        | Hp : pick_right _ _ _ _ = _ |- _ =>
            rewrite Hp in Hb'; first [discriminate Hb' | injection Hb' as <-]
        end;
    repeat match goal with
        | H : getitem ?h ?i = Raise _ |- _ =>
            exfalso; unfold getitem in H;
            destruct (lookup_lt_is_Some_2 h i) as [? Hp]; [done|];
            by rewrite Hp in H
        | H : setitem ?h ?i _ = Raise _ |- _ =>
            exfalso; unfold setitem in H; by rewrite decide_True in H by lia
        | H : getitem _ _ = Ok _ |- _ => apply getitem_Some in H
        | H : setitem _ _ _ = Ok _ |- _ => apply setitem_Ok in H as [? ->]
        end.
  - (* a leaf *)
    eexists _, _. split; [done|]. split; [done|]. lia.
  - (* the smaller child moves up *)
    match goal with
    | Hp : pick_right _ _ _ _ = Ok b |- _ =>
        pose proof (pick_right_Ok heap pos b Hp Hc') as Hpick; clear Hp
    end.
    clear Heqcall.
    match goal with Hx : heap !! _ = Some child |- _ => rename Hx into Heq0 end.
    set (c := if b then 2 * pos + 1 + 1 else 2 * pos + 1) in *.
    assert (c = 2 * pos + 1 \/ c = 2 * pos + 2) as Hcc
      by (subst c; destruct b; lia).
    assert ((c - 1) / 2 = pos) as Hpc.
    { destruct Hcc as [-> | ->].
      - replace (2 * pos + 1 - 1) with (pos * 2) by lia.
        by rewrite Nat.div_mul.
      - replace (2 * pos + 2 - 1) with (1 + pos * 2) by lia.
        by rewrite Nat.div_add. }
    apply H; [by rewrite length_insert|].
    split; [by rewrite length_insert|]. split.
    + intros i Hi Hne Hnp x p.
      destruct (decide (i = pos)) as [->|Hne'].
      * rewrite list_lookup_insert_eq by done. intros [= <-].
        pose proof (parent_lt pos Hi).
        rewrite list_lookup_insert_ne by lia. intros Hg.
        apply (Hgrand c child p); try done; lia.
      * rewrite list_lookup_insert_ne by lia. intros Hx.
        destruct (decide ((i - 1) / 2 = pos)) as [Ep|Np].
        { rewrite Ep. rewrite list_lookup_insert_eq by done.
          intros [= <-].
          destruct (parent_child _ _ Ep Hi) as [-> | ->].
          - (* i is the left child, so the right one was picked *)
            assert (b = true) as -> by (subst c; destruct b; [done|lia]).
            by apply (Hpick x child).
          - assert (b = false) as -> by (subst c; destruct b; [lia|done]).
            apply (Hpick child x); [done|].
            by replace (2 * pos + 1 + 1) with (2 * pos + 2) by lia. }
        rewrite list_lookup_insert_ne by lia. intros Hp.
        by apply (Hedges i Hi Hne' Np).
    + intros d x g Hc0 Hd Hd0 Hx Hg.
      rewrite Hpc in Hg. rewrite list_lookup_insert_eq in Hg by done.
      injection Hg as <-.
      assert (c < d) by (destruct (parent_child _ _ Hd Hd0); lia).
      rewrite list_lookup_insert_ne in Hx by lia.
      apply (Hedges d Hd0 ltac:(lia) ltac:(lia) x child Hx).
      by rewrite Hd.
Qed.

Lemma siftup_heap_ok (heap : list A) :
  up_inv heap 0 ->
  exists heap', siftup cmp_lt heap 0 = Ok heap' /\ heap_ok heap'.
Proof using cmp_lt_ltb ltb_asym ltb_le_trans.
  intros Hinv. pose proof Hinv as (Hpos & _ & _).
  unfold siftup, getitem.
  destruct (lookup_lt_is_Some_2 heap 0 Hpos) as [newitem ->]. simpl.
  destruct (siftup_loop_inv heap (length heap) 0 eq_refl Hinv)
    as (h1 & p1 & -> & (Hp1 & Hedges & _) & Hleaf).
  simpl. unfold setitem. rewrite decide_True by done. simpl.
  unfold siftdown, getitem. rewrite list_lookup_insert_eq by done. simpl.
  apply siftdown_loop_heap_ok; [done|].
  split; [by rewrite length_insert|]. split.
  - intros i Hi Hne x p. rewrite list_insert_insert_eq.
    intros Hx Hp.
    assert ((i - 1) / 2 <> p1) as Hnp.
    { intros E. apply lookup_lt_Some in Hx. rewrite length_insert in Hx.
      destruct (parent_child _ _ E Hi); lia. }
    rewrite list_lookup_insert_ne in Hx, Hp by lia.
    by apply (Hedges i Hi Hne Hnp).
  - intros c x g _ Hc Hc0 Hx _.
    apply lookup_lt_Some in Hx. rewrite length_insert in Hx.
    destruct (parent_child _ _ Hc Hc0); lia.
Qed.

(** [heappop] on a heap returns its root and leaves a heap. *)
Lemma heappop_heap_ok (heap : list A) r :
  heap_ok heap -> heap !! 0 = Some r ->
  exists heap', heappop cmp_lt heap = Ok (r, heap') /\ heap_ok heap'.
Proof using cmp_lt_ltb ltb_asym ltb_le_trans.
  intros Hh Hr. unfold heappop.
  destruct (list_pop heap) as [[lastelt rest]|] eqn:E.
  2: { unfold list_pop in E. destruct (last heap) eqn:El; [done|].
       apply last_None in El as ->. done. }
  apply (list_pop_Ok heap) in E as ->. simpl.
  destruct rest as [|y rest]; simpl.
  - simpl in Hr. injection Hr as ->. eexists; split; [done|].
    apply heap_ok_nil.
  - simpl in Hr. injection Hr as ->.
    destruct (siftup_heap_ok (lastelt :: rest)) as (h' & -> & Hh').
    + split; [simpl; lia|]. split.
      * intros i Hi _ Hnp x p Hx Hp.
        pose proof (parent_lt i Hi).
        pose proof (lookup_lt_Some _ _ _ Hx) as Hlen. simpl in Hlen.
        apply (Hh i Hi x p).
        { destruct i; [lia|]. simpl in *.
          rewrite lookup_app_l by lia. done. }
        { destruct ((i - 1) / 2) eqn:Ep; [done|]. simpl in *.
          rewrite lookup_app_l by lia. done. }
      * intros; lia.
    + simpl. eexists; split; [done|]. done.
Qed.

End HeapqOrder.

(** ** The open lots and the running totals *)

#[global] Instance sum_btc_Permutation : Proper ((≡ₚ) ==> Qeq) sum_btc.
Proof.
  intros l1 l2 H. induction H; simpl; try lra.
Qed.

#[global] Instance sum_usd_Permutation : Proper ((≡ₚ) ==> Qeq) sum_usd.
Proof.
  intros l1 l2 H. induction H; simpl; try lra.
Qed.

#[global] Instance lots_positive_Permutation :
  Proper ((≡ₚ) ==> iff) lots_positive.
Proof. intros l1 l2 H. unfold lots_positive. by rewrite H. Qed.



Lemma Dec_ltb_ge x y : Dec.ltb x y = false <-> (y <= x)%Q.
Proof.
  unfold Dec.ltb. rewrite negb_false_iff. apply Qle_bool_iff.
Qed.



Lemma Dec_sub_eq x y : (Dec.sub x y == x - y)%Q.
Proof. apply Qred_correct. Qed.





(** Case analysis along [sell_loop], its variables named as in the
    source. *)
Ltac sell_loop_cases m l tc g b :=
  funelim (sell_loop m l tc g b);
  try rename lots0 into lots; try rename btc0 into btc;
  try rename total_cost0 into total_cost; try rename gains0 into gains;
  try rename method0 into method.


Lemma method_order_cmp method cmp l r :
  method_order method = Some cmp -> Lot_cmp method l r = Some (cmp l r).
Proof.
  unfold method_order, Lot_cmp.
  destruct (String.eqb method "fifo"); [by intros [= <-]|].
  destruct (String.eqb method "lifo"); [by intros [= <-]|done].
Qed.

Lemma method_order_None method l r :
  method_order method = None -> Lot_cmp method l r = None.
Proof.
  unfold method_order, Lot_cmp.
  destruct (String.eqb method "fifo"); [done|].
  by destruct (String.eqb method "lifo").
Qed.

Lemma method_order_cmp_order method cmp :
  method_order method = Some cmp -> cmp_order cmp.
Proof.
  unfold method_order.
  destruct (String.eqb method "fifo");
    [intros [= <-]; apply cmp_order_fifo|].
  destruct (String.eqb method "lifo");
    [intros [= <-]; apply cmp_order_lifo|done].
Qed.

Lemma Lot_cmp_lt_ltb method cmp x y :
  method_order method = Some cmp ->
  Lot_cmp_lt method x y = Ok (ltb_of cmp x y).
Proof.
  intros H. unfold Lot_cmp_lt, ltb_of.
  rewrite (method_order_cmp _ _ _ _ H). by destruct (cmp y x).
Qed.

Lemma ltb_of_asym cmp :
  cmp_order cmp ->
  forall x y, ltb_of cmp x y = true -> ltb_of cmp y x = false.
Proof.
  intros O x y. unfold ltb_of. rewrite (cmp_antisym cmp O y x).
  by destruct (cmp y x).
Qed.

Lemma ltb_of_false cmp x y : ltb_of cmp y x = false <-> cmp x y <> Gt.
Proof. unfold ltb_of. destruct (cmp x y); split; done. Qed.

Lemma ltb_of_le_trans cmp :
  cmp_order cmp ->
  forall x y z,
    ltb_of cmp y x = false -> ltb_of cmp z y = false -> ltb_of cmp z x = false.
Proof.
  intros O x y z. rewrite !ltb_of_false. apply (cmp_le_trans cmp O).
Qed.

(** The lots form a heap for the order of the method. *)
Definition lots_heap (method : string) (lots : list Lot) : Prop :=
  exists cmp, method_order method = Some cmp /\ heap_ok (ltb_of cmp) lots.

Lemma Heap_push_heap method lots item :
  lots_heap method lots ->
  exists lots', Heap_push method lots item = Ok lots' /\ lots_heap method lots'.
Proof.
  intros (cmp & Hm & Hh).
  pose proof (method_order_cmp_order _ _ Hm) as O.
  destruct (heappush_heap_ok (Lot_cmp_lt method) (ltb_of cmp)) with
    (heap := lots) (item := item) as (lots' & E & Hh');
    eauto using Lot_cmp_lt_ltb, ltb_of_asym, ltb_of_le_trans.
  exists lots'. split; [done|]. by exists cmp.
Qed.

Lemma Heap_pop_heap method lots r :
  lots_heap method lots -> lots !! 0 = Some r ->
  exists lots', Heap_pop method lots = Ok (r, lots') /\ lots_heap method lots'.
Proof.
  intros (cmp & Hm & Hh) Hr.
  pose proof (method_order_cmp_order _ _ Hm) as O.
  destruct (heappop_heap_ok (Lot_cmp_lt method) (ltb_of cmp)) with
    (heap := lots) (r := r) as (lots' & E & Hh');
    eauto using Lot_cmp_lt_ltb, ltb_of_asym, ltb_of_le_trans.
  exists lots'. split; [done|]. by exists cmp.
Qed.

Lemma Heap_pop_heap_inv method lots lot rest :
  lots_heap method lots -> Heap_pop method lots = Ok (lot, rest) ->
  lots !! 0 = Some lot /\ lots_heap method rest.
Proof.
  intros Hh E. destruct lots as [|r lots]; [done|].
  destruct (Heap_pop_heap method (r :: lots) r Hh eq_refl) as (lots' & E' & Hh').
  rewrite E in E'. injection E' as -> ->. done.
Qed.













(** ** Which lot a disposal consumes *)

Lemma cmp_time_eq a b : cmp_time a b = Eq <-> a = b.
Proof.
  split; [|intros ->; apply (cmp_refl cmp_time cmp_order_time)].
  destruct a, b. unfold cmp_time, cmp_Z. simpl.
  repeat match goal with
         | |- cmp_or (?x ?= ?y)%Z _ = Eq -> _ =>
             destruct (Z.compare_spec x y); simpl; [subst|done|done]
         end.
  by intros ->%Z.compare_eq.
Qed.

Lemma cmp_or_not_Gt a b :
  cmp_or a b <> Gt <-> a <> Gt /\ (a = Eq -> b <> Gt).
Proof. destruct a, b; simpl; split; try done; intros [? ?]; auto. Qed.

Lemma heap_reachable_heap method h :
  is_Some (method_order method) -> heap_reachable method h ->
  lots_heap method h.
Proof.
  intros Hm. induction 1 as [|h item h' _ IH E|h item h' _ IH E].
  - destruct Hm as [cmp Hc]. exists cmp. split; [done|]. apply heap_ok_nil.
  - destruct (Heap_push_heap method h item IH) as (l' & E' & Hl'). congruence.
  - by destruct (Heap_pop_heap_inv _ _ _ _ IH E).
Qed.

Lemma sell_loop_reachable method lots tc g b lots' tc' g' :
  heap_reachable method lots ->
  sell_loop method lots tc g b = Ok (lots', tc', g') ->
  heap_reachable method lots'.
Proof.
  sell_loop_cases method lots tc g b; try discriminate; intros Hr.
  - by intros [= <- <- <-].
  - intros E. eapply H; [|exact E]. by eapply reach_pop.
  - intros [= <- <- <-]. eapply reach_push; [|done]. by eapply reach_pop.
Qed.

(** Every heap of lots that the ledger holds is such a heap. *)
Lemma ledger_states_reachable method feed st all :
  heap_reachable method (lots st) ->
  Forall (fun st' => heap_reachable method (lots st'))
         (ledger_states method feed st all).
Proof.
  revert st. induction all as [|t all IH]; intros st Hr; simpl; [done|].
  destruct (ledger_step method feed st t) as [[st' rep]|] eqn:E; [|done].
  assert (heap_reachable method (lots st')) as Hr'.
  { revert E. unfold ledger_step.
    destruct (usd_btc _ _ _) as [[[u ob] pr]|]; [|done]. simpl.
    destruct ob as [b|]; [|done]. simpl.
    destruct (Dec.ltb 0 b).
    - destruct (Lot_init _ _ _ _) as [lot|]; [|done]. simpl.
      destruct (Heap_push method (lots st) lot) as [lots'|] eqn:Ep; [|done].
      simpl. destruct (fmv _ _ _) as [[mv pr']|]; [|done]. simpl.
      intros [= <- _]. simpl. by eapply reach_push.
    - destruct (sell_loop _ _ _ _ _) as [[[lots' tc'] g']|] eqn:Es; [|done].
      simpl. destruct (fmv _ _ _) as [[mv pr']|]; [|done]. simpl.
      intros [= <- _]. simpl. by eapply sell_loop_reachable. }
  constructor; [done|]. by apply IH.
Qed.

Lemma method_order_cases method cmp :
  method_order method = Some cmp ->
  (method = "fifo" /\ cmp = cmp_fifo) \/ (method = "lifo" /\ cmp = cmp_lifo).
Proof.
  unfold method_order.
  destruct (String.eqb_spec method "fifo") as [->|_];
    [intros [= <-]; by left|].
  destruct (String.eqb_spec method "lifo") as [->|_];
    [intros [= <-]; by right|done].
Qed.


(** ** Worked runs *)



(** ** The price-based policies *)

(** Under any method other than [fifo] and [lifo], [Lot.__cmp__] returns
    [None] and comparing two lots is a TypeError. *)
Lemma Lot_cmp_lt_unsupported method x y :
  method_order method = None -> Lot_cmp_lt method x y = Raise TypeError.
Proof.
  intros H. unfold Lot_cmp_lt. by rewrite (method_order_None _ _ _ H).
Qed.

(** C4, on the code: with [--method lowest] or [--method highest] the
    second acquisition must compare two lots, and the run ends there with a
    TypeError; no lot is ever selected by price. *)
Theorem lowest_highest_raise_TypeError :
  ledger_loop "lowest" [] (Ledger_init ∅)
    [buy_1_for_100; buy_1_for_200; a_trade 3 (-1) 300 "unique:3"]
  = (firstn 1 reports_two_lots, Raise TypeError) /\
  ledger_loop "highest" [] (Ledger_init ∅)
    [buy_1_for_100; buy_1_for_200; a_trade 3 (-1) 300 "unique:3"]
  = (firstn 1 reports_two_lots, Raise TypeError).
Proof. split; vm_compute; reflexivity. Qed.

(** ** The fiat value of a deposit or withdrawal *)

(** C5 (as stated) fails: a withdrawal of 1 whose own price is zero, on a
    date for which the oracle answers 100, has the fiat value +100: neither
    [-100 * |-1|] nor [-0 * |-1|]. *)
Lemma withdrawal_fiat_value_positive :
  usd_btc [] ∅ withdraw_1 = Ok (100%Q, Some (-1)%Q, ∅) /\
  fmv [] ∅ (timestamp withdraw_1) = Ok (100%Q, ∅) /\
  ~ (100 == spec_fiat_value 100 (-1))%Q /\
  ~ (100 == spec_fiat_value 0 (-1))%Q.
Proof. vm_compute. repeat split; discriminate. Qed.

(** C5 (as amended): for a transaction that is not a trade, the asset delta
    is [btc] and the fiat value is [roundd(-price_used * btc, 2)] with the
    signed [btc] (a cost for a deposit, proceeds for a withdrawal), where
    [price_used] is the transaction's own price when it is set and not
    zero and the oracle's value for the date otherwise. *)
Theorem non_trade_fiat_value (feed : list string)
    (prices : gmap string Decimal) (t : Transaction) (b market : Decimal)
    (prices' : gmap string Decimal) :
  type t <> trade ->
  btc t = Some b ->
  fmv feed prices (timestamp t) = Ok (market, prices') ->
  exists prices'',
    usd_btc feed prices t =
      (let* u := roundd (Dec.mul (Dec.neg (price_used t market)) b) 2 in
       Ok (u, Some b, prices'')).
Proof.
  intros Hty Hb Hm. unfold usd_btc, price_used, Dec.truthy.
  assert (TxType_eqb (type t) trade = false) as ->
    by (destruct (type t); done).
  rewrite Hb, Hm.
  destruct (price t) as [p|]; [destruct (Qeq_bool p 0)|]; simpl; eauto.
Qed.

Lemma non_trade_fiat_value_witness :
  exists prices'',
    usd_btc [] ∅ withdraw_1 =
      (let* u := roundd (Dec.mul (Dec.neg (price_used withdraw_1 100)) (-1)) 2 in
       Ok (u, Some (-1)%Q, prices'')).
Proof.
  apply (non_trade_fiat_value [] ∅ withdraw_1 (-1)%Q 100%Q ∅).
  - discriminate.
  - reflexivity.
  - reflexivity.
Defined.

(** ** The price feed *)

(** Read from a file or a URL, the header line ends with its newline and
    so differs from the string it is compared with: the layout is not
    recognised, whatever follows. *)
Lemma fmv_header_rejected (rest : list string) (prices : gmap string Decimal)
    (timestamp : struct_time) :
  size prices = 0%nat ->
  fmv (String.append bitcoinaverage_header newline :: rest) prices timestamp
  = Raise ValueError.
Proof. intros H. unfold fmv. rewrite bool_decide_eq_true_2 by done. done. Qed.

(** C8, on the code: on a well-formed feed of the first layout the first
    query raises ValueError ("Unknown format") at the header line; and had
    the header been recognised, the first data row would raise
    UnboundLocalError at [prices[date] = decimal.Decimal(price)].  Only a
    feed that is the bare header, without a newline, loads, and its table
    is empty. *)
Theorem fmv_bitcoinaverage_fails :
  fmv bitcoinaverage_feed ∅ (day 27) = Raise ValueError /\
  fmv_lines (mkFmvFrame (Some bitcoinaverage) None ∅) (tl bitcoinaverage_feed)
  = Raise UnboundLocalError /\
  fmv [bitcoinaverage_header] ∅ (day 27) = Ok (100%Q, ∅).
Proof. vm_compute. repeat split; reflexivity. Qed.

(** ** The paired MtGox files *)

(** C9, on the code: with one BTC file and no USD file the counters differ
    and [check_complete] would raise, but [main] never calls it: the run
    goes through the accounting and ends normally. *)
Theorem main_never_checks_complete :
  (exists mtgox all events,
     prepare only_mtgox mtgox_btc_rows no_other_file mktime_utc args_btc_only
       = Ok (mtgox, all, events) /\
     seen_btc mtgox = 1%Z /\ seen_usd mtgox = 0%Z /\
     MtGoxParser_check_complete mtgox = Raise ValueError /\
     length all = 1%nat) /\
  (let out := main only_mtgox mtgox_btc_rows no_other_file [] mktime_utc
                (day 30) args_btc_only in
   length (out_reports out) = 1%nat /\
   (let* r := out_final out in Ok (total_btc (fst (fst r)),
                                   total_cost (fst (fst r))))
   = Ok (1%Q, 100%Q)).
Proof.
  split.
  - eexists _, _, _. split; [vm_compute; reflexivity|].
    repeat split; reflexivity.
  - vm_compute. split; reflexivity.
Qed.

(** ** Transfer matching *)

Lemma keq_refl x : keq x x = true.
Proof. unfold keq. by rewrite (cmp_refl _ cmp_order_Transaction). Qed.

Lemma keq_sym x y : keq x y = keq y x.
Proof.
  unfold keq. rewrite (cmp_antisym _ cmp_order_Transaction y x).
  by destruct (Transaction_cmp y x).
Qed.

Lemma keys_distinct_eq l x y :
  keys_distinct l -> In x l -> In y l -> keq x y = true -> x = y.
Proof.
  induction l as [|a l IH]; simpl; [done|]. intros [Ha Hl] Hx Hy E.
  unfold keq in E.
  destruct Hx as [->|Hx], Hy as [->|Hy]; auto.
  - destruct (Transaction_cmp x y) eqn:Ec; try done. by destruct (Ha y Hy).
  - rewrite (cmp_antisym _ cmp_order_Transaction y x) in E.
    destruct (Transaction_cmp y x) eqn:Ec; try done. by destruct (Ha x Hx).
Qed.

Lemma keys_distinct_app l1 l2 :
  keys_distinct (l1 ++ l2) ->
  keys_distinct l1 /\ keys_distinct l2 /\
  (forall x y, In x l1 -> In y l2 -> keq x y = false).
Proof.
  induction l1 as [|a l1 IH]; simpl; [by auto|]. intros [Ha Hl].
  destruct (IH Hl) as (H1 & H2 & H3). split; [split; [|done]|split; [done|]].
  - intros y Hy. apply Ha, in_or_app. by left.
  - intros x y [->|Hx] Hy; [|by apply H3].
    unfold keq. specialize (Ha y (in_or_app _ _ _ (or_intror Hy))).
    by destruct (Transaction_cmp x y).
Qed.

(** Removing a member from a filtered part of a collection with distinct
    keys filters that member out. *)
Lemma list_remove_filter (P : Transaction -> bool) all t :
  keys_distinct all -> In t all -> P t = true ->
  list_remove t (List.filter P all)
  = Ok (List.filter (fun x => P x && negb (keq x t)) all).
Proof.
  induction all as [|y all IH]; simpl; [done|]. intros [Hy Hall] Ht HP.
  destruct Ht as [->|Ht].
  - rewrite HP, keq_refl. simpl.
    rewrite (cmp_refl _ cmp_order_Transaction). f_equal.
    apply List.filter_ext_in. intros x Hx.
    assert (keq x t = false) as ->; [|by rewrite andb_true_r].
    rewrite keq_sym. unfold keq. specialize (Hy x Hx).
    by destruct (Transaction_cmp t x).
  - assert (keq y t = false) as Hk.
    { unfold keq. specialize (Hy t Ht). by destruct (Transaction_cmp y t). }
    rewrite Hk, andb_true_r. destruct (P y); simpl; [|by apply IH].
    unfold keq in Hk. destruct (Transaction_cmp y t) eqn:Ec; [done| |];
      by rewrite (IH Hall Ht HP).
Qed.

(** The dictionary [deposits]. *)
Lemma Dec_eqb_trans a b c :
  Dec.eqb a b = true -> Dec.eqb a c = Dec.eqb b c.
Proof.
  unfold Dec.eqb. intros H%Qeq_bool_iff.
  destruct (Qeq_bool b c) eqn:E.
  - apply Qeq_bool_iff. apply Qeq_bool_iff in E. by rewrite H.
  - destruct (Qeq_bool a c) eqn:E'; [|done].
    apply Qeq_bool_iff in E'. rewrite H in E'.
    apply Qeq_bool_iff in E'. congruence.
Qed.

Lemma Dec_eqb_sym a b : Dec.eqb a b = Dec.eqb b a.
Proof.
  unfold Dec.eqb. destruct (Qeq_bool b a) eqn:E.
  - apply Qeq_bool_iff. apply Qeq_bool_iff in E. by symmetry.
  - destruct (Qeq_bool a b) eqn:E'; [|done].
    apply Qeq_bool_iff in E'. symmetry in E'.
    apply Qeq_bool_iff in E'. congruence.
Qed.

Lemma dict_get_set k k' v d :
  dict_get k (dict_set k' v d) =
  if Dec.eqb k' k then Some v else dict_get k d.
Proof.
  induction d as [|[k0 v0] d IH]; simpl.
  - done.
  - destruct (Dec.eqb k0 k') eqn:E0; simpl.
    + rewrite (Dec_eqb_trans _ _ k E0). by destruct (Dec.eqb k' k).
    + rewrite IH. destruct (Dec.eqb k0 k) eqn:E1; [|done].
      destruct (Dec.eqb k' k) eqn:E2; [|done].
      rewrite (Dec_eqb_trans _ _ k' E1), Dec_eqb_sym, E2 in E0. done.
Qed.

Lemma dict_get_proper k k' d :
  Dec.eqb k k' = true -> dict_get k d = dict_get k' d.
Proof.
  intros E. induction d as [|[k0 v0] d IH]; simpl; [done|].
  rewrite IH. rewrite (Dec_eqb_sym k0 k), (Dec_eqb_sym k0 k').
  by rewrite (Dec_eqb_trans _ _ k0 E).
Qed.

Lemma is_deposit_of_proper k k' x :
  Dec.eqb k k' = true -> is_deposit_of k x = is_deposit_of k' x.
Proof.
  intros E. unfold is_deposit_of. destruct (type x); try done.
  destruct (btc x) as [b|]; [|done].
  rewrite (Dec_eqb_sym b k), (Dec_eqb_sym b k').
  by rewrite (Dec_eqb_trans _ _ b E).
Qed.

Section TransferMatchingProps.

Variable mktime : struct_time -> Z.
Variable transfer_window_hours : Z.

Local Abbreviation in_win := (in_window mktime transfer_window_hours).
Local Abbreviation step := (match_step mktime transfer_window_hours).
Local Abbreviation loop := (match_loop mktime transfer_window_hours).

(** [deposits] after indexing: under each key, the deposits of that
    amount, in order. *)
Lemma index_deposits_get_aux all acc k :
  default [] (dict_get k
    (fold_left
       (fun deposits t =>
          match type t, btc t with
          | deposit, Some b =>
              if Dec.truthy b
              then dict_set b (default [] (dict_get b deposits) ++ [t]) deposits
              else deposits
          | _, _ => deposits
          end) all acc))
  = default [] (dict_get k acc) ++ List.filter (is_deposit_of k) all.
Proof.
  revert acc. induction all as [|t all IH]; intros acc; simpl.
  - by rewrite app_nil_r.
  - rewrite IH. unfold is_deposit_of at 2.
    destruct (type t); simpl; try done.
    destruct (btc t) as [b|]; simpl; [|done].
    destruct (Dec.truthy b); simpl; [|done].
    rewrite dict_get_set. destruct (Dec.eqb b k) eqn:E; simpl; [|done].
    rewrite (dict_get_proper b k acc E). by rewrite <- app_assoc.
Qed.

Lemma index_deposits_get all k :
  default [] (dict_get k (index_deposits all))
  = List.filter (is_deposit_of k) all.
Proof. unfold index_deposits. by rewrite index_deposits_get_aux. Qed.

(** *** The matching loop as a function of the transactions removed so far

    Which deposits are still candidates for [t], the one taken, and what
    the step removes and prints. *)

Definition step_matches (all removed : list Transaction) (t : Transaction)
  : list Transaction :=
  match type t, btc t with
  | withdraw, Some b =>
      if Dec.truthy b
      then List.filter
             (fun x => is_deposit_of (Dec.neg b) x && negb (gone removed x)) all
      else []
  | _, _ => []
  end.

Definition step_candidate (all removed : list Transaction) (t : Transaction)
  : option Transaction :=
  List.find (fun c => in_win c t) (step_matches all removed t).

Definition step_removed (all removed : list Transaction) (t : Transaction)
  : list Transaction :=
  match step_candidate all removed t with
  | Some c => c :: t :: removed
  | None => removed
  end.

Definition step_events (all removed : list Transaction) (t : Transaction)
    (events : list MatchEvent) : list MatchEvent :=
  match step_candidate all removed t, step_matches all removed t with
  | Some c, _ => events ++ [ev_match t c]
  | None, [] => events
  | None, matches => events ++ [ev_no_match t matches]
  end.

(** The state of the loop when [removed] has been removed. *)
Definition match_inv (all removed cur : list Transaction) (deps : Deposits)
  : Prop :=
  cur = List.filter (fun x => negb (gone removed x)) all /\
  forall k,
    default [] (dict_get k deps)
    = List.filter (fun x => is_deposit_of k x && negb (gone removed x)) all.

Lemma match_inv_init all : match_inv all [] all (index_deposits all).
Proof.
  split.
  - simpl. induction all as [|x all IH]; simpl; [done|]. by rewrite <- IH.
  - intros k. rewrite index_deposits_get.
    apply List.filter_ext. intros x. simpl. by rewrite andb_true_r.
Qed.

Lemma step_candidate_Some all removed t c :
  step_candidate all removed t = Some c ->
  exists b,
    type t = withdraw /\ btc t = Some b /\ Dec.truthy b = true /\
    In c all /\ is_deposit_of (Dec.neg b) c = true /\
    gone removed c = false /\ in_win c t = true.
Proof.
  unfold step_candidate, step_matches. intros H.
  destruct (type t); try done. destruct (btc t) as [b|]; [|done].
  destruct (Dec.truthy b) eqn:Etr; [|done].
  apply List.find_some in H as [Hin Hw].
  apply List.filter_In in Hin as [Hin [Hd Hg]%andb_true_iff].
  apply negb_true_iff in Hg. exists b. auto 10.
Qed.

Lemma is_deposit_of_type k x : is_deposit_of k x = true -> type x = deposit.
Proof. unfold is_deposit_of. by destruct (type x). Qed.

Lemma match_step_spec all removed cur deps events t :
  keys_distinct all -> match_inv all removed cur deps -> In t all ->
  (type t = withdraw -> gone removed t = false) ->
  exists cur' deps',
    step (cur, deps, events) t
    = Ok (cur', deps', step_events all removed t events) /\
    match_inv all (step_removed all removed t) cur' deps'.
Proof.
  intros Hall Hinv Ht Hng. pose proof Hinv as [Hcur Hdeps].
  unfold match_step, step_events, step_removed.
  destruct (step_candidate all removed t) as [c|] eqn:Ec.
  - (* a candidate in the window: both are removed *)
    pose proof Ec as Ec'.
    apply step_candidate_Some in Ec'
      as (b & Hty & Hb & Htr & Hc & Hd & Hgc & Hw).
    unfold step_candidate, step_matches in Ec.
    rewrite Hty, Hb, Htr in Ec |- *. rewrite Hdeps, Ec.
    specialize (Hng Hty).
    assert (keq c t = false) as Hct.
    { destruct (keq c t) eqn:E; [|done].
      apply (keys_distinct_eq all) in E; try done. subst c.
      apply is_deposit_of_type in Hd. congruence. }
    rewrite Hcur.
    pose proof (list_remove_filter (fun x => negb (gone removed x))
                  all t Hall Ht) as R1.
    simpl in R1. rewrite Hng in R1. rewrite (R1 eq_refl). simpl.
    pose proof (list_remove_filter
                  (fun x => negb (gone removed x) && negb (keq x t))
                  all c Hall Hc) as R2.
    simpl in R2. rewrite Hgc, Hct in R2. rewrite (R2 eq_refl). simpl.
    pose proof (list_remove_filter
                  (fun x => is_deposit_of (Dec.neg b) x
                            && negb (gone removed x))
                  all c Hall Hc) as R3.
    simpl in R3. rewrite Hgc, Hd in R3. rewrite (R3 eq_refl). simpl.
    clear R1 R2 R3.
    eexists _, _. split; [done|]. split.
    + apply List.filter_ext. intros x. unfold gone. simpl.
      by destruct (keq x c), (keq x t), (existsb (keq x) removed).
    + intros k. rewrite dict_get_set.
      destruct (Dec.eqb (Dec.neg b) k) eqn:Ek; simpl.
      * apply List.filter_ext_in. intros x Hx. simpl.
        rewrite (is_deposit_of_proper _ _ x Ek).
        destruct (is_deposit_of k x) eqn:Edx; simpl; [|done].
        assert (keq x t = false) as Hxt.
        { destruct (keq x t) eqn:E; [|done].
          apply (keys_distinct_eq all) in E; try done. subst x.
          apply is_deposit_of_type in Edx. congruence. }
        unfold gone. simpl. rewrite Hxt.
        by destruct (keq x c), (existsb (keq x) removed).
      * rewrite Hdeps. apply List.filter_ext_in. intros x Hx. simpl.
        destruct (is_deposit_of k x) eqn:Edx; simpl; [|done].
        assert (keq x c = false) as Hxc.
        { destruct (keq x c) eqn:E; [|done].
          apply (keys_distinct_eq all) in E; try done. subst x.
          unfold is_deposit_of in Hd, Edx.
          destruct (type c); try done. destruct (btc c) as [bc|]; try done.
          apply andb_true_iff in Hd as [_ Hd].
          apply andb_true_iff in Edx as [_ Edx].
          rewrite <- (Dec_eqb_trans _ _ k Hd) in Ek. congruence. }
        assert (keq x t = false) as Hxt.
        { destruct (keq x t) eqn:E; [|done].
          apply (keys_distinct_eq all) in E; try done. subst x.
          apply is_deposit_of_type in Edx. congruence. }
        unfold gone. simpl. by rewrite Hxc, Hxt.
  - (* no candidate in the window: nothing is removed *)
    unfold step_candidate, step_matches in Ec |- *.
    destruct (type t); try (eexists _, _; by split).
    destruct (btc t) as [b|]; [|eexists _, _; by split].
    destruct (Dec.truthy b); [|eexists _, _; by split].
    rewrite Hdeps, Ec.
    destruct (List.filter
                (fun x => is_deposit_of (Dec.neg b) x && negb (gone removed x))
                all); eexists _, _; by split.
Qed.

Fixpoint loop_removed (all removed todo : list Transaction)
  : list Transaction :=
  match todo with
  | [] => removed
  | t :: rest => loop_removed all (step_removed all removed t) rest
  end.

Fixpoint loop_events (all removed todo : list Transaction)
    (events : list MatchEvent) : list MatchEvent :=
  match todo with
  | [] => events
  | t :: rest =>
      loop_events all (step_removed all removed t) rest
        (step_events all removed t events)
  end.





(** What has been removed is made of deposits and of withdrawals that the
    loop has gone past. *)
Definition removed_ok (all done removed : list Transaction) : Prop :=
  forall y, In y removed -> In y all /\ (type y = deposit \/ In y done).

Lemma gone_In removed x :
  gone removed x = true -> exists y, In y removed /\ keq x y = true.
Proof. unfold gone. intros H. by apply List.existsb_exists in H. Qed.

(** The loop runs to its end, and its state is the one that the
    transactions removed determine. *)
Lemma match_loop_spec all done todo removed cur deps events :
  keys_distinct all -> all = done ++ todo ->
  match_inv all removed cur deps -> removed_ok all done removed ->
  exists cur' deps',
    loop (cur, deps, events) todo
    = Ok (cur', deps', loop_events all removed todo events) /\
    match_inv all (loop_removed all removed todo) cur' deps'.
Proof.
  revert done removed cur deps events.
  induction todo as [|t todo IH]; intros done removed cur deps events
    Hall Hsplit Hinv Hrem.
  - by eexists _, _.
  - cbn [match_loop loop_events loop_removed].
    assert (In t all) as Ht by (subst all; apply in_or_app; right; by left).
    destruct (match_step_spec all removed cur deps events t Hall Hinv Ht)
      as (cur1 & deps1 & -> & Hinv1).
    { intros Hty. destruct (gone removed t) eqn:Eg; [exfalso|done].
      apply gone_In in Eg as (y & Hy & Hk).
      destruct (Hrem y Hy) as [Hyall Hyd].
      apply (keys_distinct_eq all) in Hk; try done. subst y.
      destruct Hyd as [Hyd|Hyd]; [congruence|].
      rewrite Hsplit in Hall.
      destruct (keys_distinct_app _ _ Hall) as (_ & _ & Hcross).
      specialize (Hcross t t Hyd (or_introl eq_refl)).
      by rewrite keq_refl in Hcross. }
    simpl. apply (IH (done ++ [t])); try done.
    + by rewrite <- app_assoc.
    + intros y Hy. unfold step_removed in Hy.
      destruct (step_candidate all removed t) as [c|] eqn:Ec.
      * destruct Hy as [<-|[<-|Hy]].
        -- apply step_candidate_Some in Ec as (b & _ & _ & _ & Hc & Hd & _).
           split; [done|]. left. by apply is_deposit_of_type in Hd.
        -- split; [done|]. right. apply in_or_app. right. by left.
        -- destruct (Hrem y Hy) as [? [?|?]]; split; auto.
           right. apply in_or_app. by left.
      * destruct (Hrem y Hy) as [? [?|?]]; split; auto.
        right. apply in_or_app. by left.
Qed.




End TransferMatchingProps.



(** * Further properties of the code *)

(** ** [roundd] *)

Lemma pow10_pos e : (0 < Dec.pow10 e)%Q.
Proof. unfold Dec.pow10. by apply Qpower_0_lt. Qed.

Lemma pow10_inv e : (Dec.pow10 (- e) * Dec.pow10 e == 1)%Q.
Proof.
  unfold Dec.pow10. rewrite <- Qpower_plus by done.
  by replace (- e + e)%Z with 0%Z by lia.
Qed.

#[global] Instance round_half_even_Proper :
  Proper (Qeq ==> eq) Dec.round_half_even.
Proof.
  intros q q' H. unfold Dec.round_half_even.
  rewrite (Qfloor_comp _ _ H).
  assert (q - inject_Z (Qfloor q') == q' - inject_Z (Qfloor q'))%Q as ->
    by (by rewrite H).
  done.
Qed.

Lemma round_half_even_Z c : Dec.round_half_even (inject_Z c) = c.
Proof.
  unfold Dec.round_half_even. rewrite Qfloor_Z.
  assert (inject_Z c - inject_Z c == 0)%Q as -> by ring.
  done.
Qed.

Lemma round_half_even_mono q q' :
  (q <= q')%Q -> (Dec.round_half_even q <= Dec.round_half_even q')%Z.
Proof.
  intros H. unfold Dec.round_half_even.
  pose proof (Qfloor_resp_le _ _ H) as Hf.
  pose proof (Qfloor_le q) as Hlo. pose proof (Qlt_floor q) as Hhi.
  pose proof (Qfloor_le q') as Hlo'. pose proof (Qlt_floor q') as Hhi'.
  set (f := Qfloor q) in *. set (f' := Qfloor q') in *.
  rewrite inject_Z_plus in Hhi, Hhi'.
  destruct (Z.eq_dec f f') as [E|E].
  - rewrite <- E in *.
    destruct (Qcompare_spec (q - inject_Z f) (1 # 2)),
             (Qcompare_spec (q' - inject_Z f) (1 # 2));
      try destruct (Z.even f); try lia; exfalso; lra.
  - assert (f + 1 <= f')%Z by lia.
    destruct (Qcompare_spec (q - inject_Z f) (1 # 2)),
             (Qcompare_spec (q' - inject_Z f') (1 # 2));
      try destruct (Z.even f); try destruct (Z.even f'); lia.
Qed.


(** X1: rounding is idempotent: a value that [roundd] returned is returned
    unchanged (and without exception) when rounded again to the same
    number of digits. *)
Theorem roundd_idempotent (x y : Decimal) (digits : Z) :
  roundd x digits = Ok y -> roundd y digits = Ok y.
Proof.
  unfold roundd, Dec.quantize.
  set (c := Dec.round_half_even (x * Dec.pow10 digits)).
  destruct (10 ^ Dec.prec <=? Z.abs c)%Z eqn:E; [done|].
  intros [= <-].
  assert (Dec.round_half_even
            (Qred (inject_Z c * Dec.pow10 (- digits)) * Dec.pow10 digits) = c)
    as ->.
  { rewrite <- (round_half_even_Z c) at 2. apply round_half_even_Proper.
    rewrite Qred_correct, <- Qmult_assoc, pow10_inv. ring. }
  by rewrite E.
Qed.

Lemma roundd_idempotent_witness :
  roundd (3 # 25) 2 = Ok (3 # 25)%Q.
Proof.
  apply (roundd_idempotent (1 # 8) (3 # 25) 2). reflexivity.
Defined.

(** X2: rounding preserves the order: of two amounts that both round, the
    smaller does not round to more than the larger. *)
Theorem roundd_monotone (x x' y y' : Decimal) (digits : Z) :
  (x <= x')%Q -> roundd x digits = Ok y -> roundd x' digits = Ok y' ->
  (y <= y')%Q.
Proof.
  unfold roundd, Dec.quantize. intros H.
  assert (x * Dec.pow10 digits <= x' * Dec.pow10 digits)%Q as Hs.
  { apply Qmult_le_compat_r; [done|]. apply Qlt_le_weak, pow10_pos. }
  apply round_half_even_mono in Hs.
  destruct (_ <=? _)%Z; [done|]. destruct (_ <=? _)%Z; [done|].
  intros [= <-] [= <-]. rewrite !Qred_correct.
  apply Qmult_le_compat_r; [|apply Qlt_le_weak, pow10_pos].
  by rewrite <- Zle_Qle.
Qed.

Lemma roundd_monotone_witness :
  ((3 # 25) <= (13 # 100))%Q.
Proof.
  apply (roundd_monotone (1 # 8) (129 # 1000) (3 # 25) (13 # 100) 2).
  - unfold Qle. simpl. lia.
  - reflexivity.
  - reflexivity.
Defined.

(** ** [unique] and [Transaction.__cmp__] *)

Lemma Z_to_int_nonnil n :
  Z.to_int n <> Decimal.Pos Decimal.Nil /\
  Z.to_int n <> Decimal.Neg Decimal.Nil.
Proof.
  destruct n as [|p|p]; simpl; split; try discriminate;
    intros [= H]; by apply (Unsigned.to_uint_nonnil p).
Qed.

Lemma string_of_Z_inj n m : string_of_Z n = string_of_Z m -> n = m.
Proof.
  unfold string_of_Z. intros H. apply DecimalZ.to_int_inj.
  destruct (Z_to_int_nonnil n) as [Hn1 Hn2].
  destruct (Z_to_int_nonnil m) as [Hm1 Hm2].
  pose proof (NilZero.isi _ Hn1 Hn2) as E1.
  pose proof (NilZero.isi _ Hm1 Hm2) as E2.
  rewrite H in E1. congruence.
Qed.

Lemma append_inj_r (p s1 s2 : string) :
  String.append p s1 = String.append p s2 -> s1 = s2.
Proof. induction p as [|c p IH]; simpl; [done|]. intros [= H]. auto. Qed.

Lemma unique_inj n m : fst (unique n) = fst (unique m) -> n = m.
Proof.
  intros H. destruct (Z.eq_dec n m) as [|Hne]; [done|].
  unfold unique in H. simpl in H.
  apply append_inj_r, string_of_Z_inj in H. lia.
Qed.

(** X3: [unique] never hands out the same id twice: at two different
    values of the counter it returns two different ids. *)
Theorem unique_ids_distinct (n m : Z) :
  n <> m -> fst (unique n) <> fst (unique m).
Proof.
  unfold unique. simpl. intros Hnm H.
  apply append_inj_r, string_of_Z_inj in H. lia.
Qed.

Lemma unique_ids_distinct_witness :
  fst (unique 0) <> fst (unique 1).
Proof.
  apply (unique_ids_distinct 0 1). lia.
Defined.

(** X4: two transactions compare equal exactly when they have the same
    time stamp and the same id, whatever their type, amounts and parser
    (this is the equality that [list.remove] and [list.sort] use). *)
Theorem Transaction_cmp_Eq_iff (left right : Transaction) :
  Transaction_cmp left right = Eq <->
  timestamp left = timestamp right /\ id left = id right.
Proof.
  unfold Transaction_cmp, cmp_str. split.
  - destruct (cmp_time (timestamp left) (timestamp right)) eqn:E; try done.
    simpl. intros H. apply cmp_time_eq in E.
    by apply String.compare_eq_iff in H.
  - intros [-> ->]. rewrite (cmp_refl _ cmp_order_time). simpl.
    apply (cmp_refl _ cmp_order_str).
Qed.

(** ** Lots and the heap *)

Lemma Dec_sub_diag x : Qeq_bool (Dec.sub x x) 0 = true.
Proof. apply Qeq_bool_iff. rewrite Dec_sub_eq. lra. Qed.

Lemma Dec_div_zero x y : Qeq_bool y 0 = true -> raises (Dec.div x y).
Proof. unfold Dec.div. intros ->. by destruct (Qeq_bool x 0). Qed.

(** X5: [Lot.sell] cannot sell a whole lot: asked for the quantity that
    the lot holds, it raises (the remaining lot would have quantity zero,
    and its price is a division by it); the ledger loop calls it only for
    less than the lot. *)
Theorem Lot_sell_whole_lot_raises (self : Lot) :
  raises (Lot_sell self (lot_btc self)).
Proof.
  unfold Lot_sell.
  assert (Dec.ltb (lot_btc self) (lot_btc self) = false) as ->
    by (apply Dec_ltb_ge; lra).
  destruct (roundd _ _) as [sold|]; [|done]. simpl.
  unfold Lot_init.
  pose proof (Dec_div_zero (Dec.sub (lot_usd self) sold) _
                (Dec_sub_diag (lot_btc self))) as H.
  by destruct (Dec.div _ _).
Qed.

(** The lot that a pop takes from a heap goes before every lot of the
    heap. *)
Lemma pop_goes_first method h lot rest :
  lots_heap method h -> Heap_pop method h = Ok (lot, rest) ->
  forall other, other ∈ h -> goes_first method lot other.
Proof.
  intros Hh Hpop other Hin. pose proof Hh as (cmp & Hc & Hok).
  pose proof (method_order_cmp_order _ _ Hc) as O.
  destruct (Heap_pop_heap_inv method h lot rest Hh Hpop) as [Hroot _].
  pose proof (heap_ok_root (ltb_of cmp) (ltb_of_asym cmp O)
                (ltb_of_le_trans cmp O) h lot other Hok Hroot Hin) as Hle.
  apply ltb_of_false in Hle.
  destruct (method_order_cases _ _ Hc) as [[-> ->]|[-> ->]];
    apply cmp_or_not_Gt in Hle as [H1 H2].
  - split; [done|]. split; [done|].
    intros Ets. apply H2. by apply cmp_time_eq.
  - split; [done|]. split.
    + intros _ E. apply H1. by apply (cmp_gt_lt cmp_time cmp_order_time).
    + intros Ets. apply H2. by apply cmp_time_eq.
Qed.



Lemma lots_two_reachable : heap_reachable "fifo" lots_two.
Proof.
  apply (reach_push "fifo" [lot_of buy_1_for_100 1 100]
           (lot_of buy_1_for_200 1 200)); [|reflexivity].
  apply (reach_push "fifo" [] (lot_of buy_1_for_100 1 100));
    [apply reach_empty|reflexivity].
Qed.

(** X6: under [fifo] and [lifo], [Heap.push] on a heap of the ledger
    always succeeds, and the new heap holds the item pushed and the items
    it held, each as many times as before. *)
Theorem Heap_push_keeps_items (method : string) (h : list Lot) (item : Lot) :
  is_Some (method_order method) ->
  heap_reachable method h ->
  exists h', Heap_push method h item = Ok h' /\ h' ≡ₚ item :: h.
Proof.
  intros Hm Hr.
  destruct (Heap_push_heap method h item (heap_reachable_heap _ _ Hm Hr))
    as (h' & E & _).
  exists h'. split; [done|]. by apply (heappush_Permutation _ _ _ _ E).
Qed.

Lemma Heap_push_keeps_items_witness :
  exists h', Heap_push "fifo" lots_two half_lot_100 = Ok h' /\
             h' ≡ₚ half_lot_100 :: lots_two.
Proof.
  apply (Heap_push_keeps_items "fifo" lots_two half_lot_100).
  - exists cmp_fifo. reflexivity.
  - exact lots_two_reachable.
Defined.

(** X7: under [fifo] and [lifo], [Heap.pop] on a heap of the ledger
    fails only on the empty heap, with IndexError; on any other heap it
    returns one of the items and leaves the others, each as many times as
    before. *)
Theorem Heap_pop_fails_only_when_empty (method : string) (h : list Lot) :
  is_Some (method_order method) ->
  heap_reachable method h ->
  match h with
  | [] => Heap_pop method h = Raise IndexError
  | _ :: _ => exists lot rest, Heap_pop method h = Ok (lot, rest) /\
                               h ≡ₚ lot :: rest
  end.
Proof.
  intros Hm Hr. destruct h as [|r h]; [done|].
  destruct (Heap_pop_heap method (r :: h) r (heap_reachable_heap _ _ Hm Hr)
              eq_refl) as (rest & E & _).
  exists r, rest. split; [done|]. by apply (heappop_Permutation _ _ _ _ E).
Qed.

Lemma Heap_pop_fails_only_when_empty_witness :
  exists lot rest, Heap_pop "fifo" lots_two = Ok (lot, rest) /\
                   lots_two ≡ₚ lot :: rest.
Proof.
  apply (Heap_pop_fails_only_when_empty "fifo" lots_two).
  - exists cmp_fifo. reflexivity.
  - exact lots_two_reachable.
Defined.



(** ** The ledger loop *)










Lemma drain_heap method h :
  lots_heap method h ->
  exists printed,
    drain method h = Ok printed /\ printed ≡ₚ h /\ in_order method printed.
Proof.
  funelim (drain method h); intros Hh; [by exists []|..];
    try (destruct (Heap_pop_heap_inv _ _ _ _ Hh Hpop) as [_ Hh'];
         match goal with
         | IH : lots_heap _ _ -> _, Hd : drain _ _ = _ |- _ =>
             destruct (IH Hh') as (printed' & E & Hperm & Hord);
             rewrite Hd in E
         end;
         try discriminate; injection E as <-).
  - (* the heap is not empty: the pop succeeds *)
    exfalso.
    match goal with
    | Hp : Heap_pop ?m (?x :: ?xs) = Raise _ |- _ =>
        destruct (Heap_pop_heap m (x :: xs) x Hh eq_refl) as (? & E & _)
    end.
    congruence.
  - exists (lot :: printed). split; [done|].
    pose proof (heappop_Permutation _ _ _ _ Hpop) as Hp.
    split; [by rewrite Hp, Hperm|]. split; [|done].
    intros y Hy. apply (pop_goes_first _ _ _ _ Hh Hpop).
    rewrite Hp. right. by rewrite <- Hperm.
Qed.

(** X12: under [fifo] and [lifo], the final listing ([while len(lots):
    print lots.pop()]) runs to its end and prints every open lot exactly
    once, each lot before all those that the method sells after it. *)
Theorem drain_lists_lots_in_order (method : string) (h : list Lot) :
  is_Some (method_order method) ->
  heap_reachable method h ->
  exists printed,
    drain method h = Ok printed /\ printed ≡ₚ h /\ in_order method printed.
Proof.
  intros Hm Hr. apply drain_heap. by apply heap_reachable_heap.
Qed.

Lemma drain_lists_lots_in_order_witness :
  exists printed,
    drain "fifo" lots_two = Ok printed /\ printed ≡ₚ lots_two /\
    in_order "fifo" printed.
Proof.
  apply (drain_lists_lots_in_order "fifo" lots_two).
  - exists cmp_fifo. reflexivity.
  - exact lots_two_reachable.
Defined.

(** ** Transfer matching, again *)

Section TransferMatchingMore.

Variable mktime : struct_time -> Z.
Variable transfer_window_hours : Z.

Lemma list_remove_length x l l' :
  list_remove x l = Ok l' -> length l = S (length l').
Proof.
  revert l'. induction l as [|y l IH]; intros l'; simpl; [done|].
  destruct (Transaction_cmp y x); [by intros [= <-]| |];
    (destruct (list_remove x l) as [r|]; [|done]); simpl;
    intros [= <-]; simpl; f_equal; by apply IH.
Qed.

Lemma match_step_count all deps events t all' deps' events' :
  match_step mktime transfer_window_hours (all, deps, events) t
    = Ok (all', deps', events') ->
  length all' + length (filter is_match events')
    + length (filter is_match events')
  = length all + length (filter is_match events)
    + length (filter is_match events).
Proof.
  unfold match_step.
  destruct (type t); try by intros [= <- <- <-].
  destruct (btc t) as [b|]; [|by intros [= <- <- <-]].
  destruct (Dec.truthy b); [|by intros [= <- <- <-]].
  destruct (List.find _ _) as [c|].
  - destruct (list_remove t all) as [a1|] eqn:E1; [|done]. simpl.
    destruct (list_remove c a1) as [a2|] eqn:E2; [|done]. simpl.
    destruct (list_remove c (default [] _)) as [m|]; [|done]. simpl.
    intros [= <- <- <-].
    apply list_remove_length in E1, E2.
    rewrite filter_app, length_app. simpl. lia.
  - destruct (default [] _); intros [= <- <- <-]; [done|].
    rewrite filter_app, length_app. simpl. lia.
Qed.

Lemma match_loop_count st todo st' :
  match_loop mktime transfer_window_hours st todo = Ok st' ->
  length st'.1.1 + length (filter is_match st'.2)
    + length (filter is_match st'.2)
  = length st.1.1 + length (filter is_match st.2)
    + length (filter is_match st.2).
Proof.
  revert st. induction todo as [|t todo IH]; intros st; simpl.
  - by intros [= <-].
  - destruct (match_step _ _ st t) as [st1|] eqn:E; [|done]. simpl.
    intros H. rewrite (IH _ H).
    destruct st as [[a d] e], st1 as [[a1 d1] e1].
    by apply match_step_count in E.
Qed.

(** X13: transfer matching removes transactions in pairs: the collection
    loses exactly two transactions for every match printed, and none
    otherwise. *)
Theorem transfer_match_removes_pairs (all all' : list Transaction)
    (events : list MatchEvent) :
  transfer_match mktime transfer_window_hours all = Ok (all', events) ->
  length all = length all' + 2 * length (filter is_match events).
Proof.
  unfold transfer_match.
  destruct (match_loop _ _ _ all) as [[[a d] e]|] eqn:E; [|done]. simpl.
  intros [= <- <-]. apply match_loop_count in E. simpl in E. lia.
Qed.

Lemma loop_removed_kinds all removed todo :
  (forall y, In y removed ->
             In y all /\ (type y = deposit \/ type y = withdraw)) ->
  (forall t, In t todo -> In t all) ->
  forall y, In y (loop_removed mktime transfer_window_hours all removed todo) ->
            In y all /\ (type y = deposit \/ type y = withdraw).
Proof.
  revert removed. induction todo as [|t todo IH]; intros removed Hrem Htodo;
    simpl; [done|].
  apply IH; [|intros; apply Htodo; by right].
  intros y. unfold step_removed.
  destruct (step_candidate _ _ all removed t) as [c|] eqn:Ec; [|by apply Hrem].
  apply step_candidate_Some in Ec as (b & Hty & _ & _ & Hc & Hd & _).
  apply is_deposit_of_type in Hd.
  intros [<-|[<-|Hy]]; [by auto| |by apply Hrem].
  split; [|by auto]. apply Htodo. by left.
Qed.

Lemma List_filter_sublist {A} (P : A -> bool) (l : list A) :
  List.filter P l `sublist_of` l.
Proof.
  induction l as [|y l IH]; simpl; [done|].
  destruct (P y); [by apply sublist_skip|by apply sublist_cons].
Qed.

(** X14: in a collection where no two transactions compare equal, the
    matching runs to its end, what is left is the collection with some
    members removed (nothing added, the order kept), and every trade and
    every fee is left. *)
Theorem transfer_match_keeps_trades (all : list Transaction) :
  keys_distinct all ->
  exists all' events,
    transfer_match mktime transfer_window_hours all = Ok (all', events) /\
    all' `sublist_of` all /\
    (forall x, In x all -> type x = trade \/ type x = fee -> In x all').
Proof.
  intros Hall.
  destruct (match_loop_spec mktime transfer_window_hours all [] all [] all
              (index_deposits all) [] Hall eq_refl (match_inv_init all))
    as (cur' & deps' & Hloop & [Hcur _]); [by intros y []|].
  unfold transfer_match. rewrite Hloop. simpl.
  eexists _, _. split; [done|]. rewrite Hcur. split.
  - apply List_filter_sublist.
  - intros x Hx Hty. apply List.filter_In. split; [done|].
    apply negb_true_iff. destruct (gone _ x) eqn:Eg; [exfalso|done].
    apply gone_In in Eg as (y & Hy & Hk).
    apply loop_removed_kinds in Hy as [Hyall Hyty]; [|by intros ? []|done].
    apply (keys_distinct_eq all) in Hk; try done. subst y.
    destruct Hty, Hyty; congruence.
Qed.

End TransferMatchingMore.

Lemma transfer_match_removes_pairs_witness :
  length [deposit_10h; withdraw_12h; withdraw_14h]
  = length [withdraw_14h]
    + 2 * length (filter is_match [ev_match withdraw_12h deposit_10h]).
Proof.
  apply (transfer_match_removes_pairs mktime_utc 24
           [deposit_10h; withdraw_12h; withdraw_14h] [withdraw_14h]
           [ev_match withdraw_12h deposit_10h]).
  vm_compute. reflexivity.
Defined.

Lemma transfer_match_keeps_trades_witness :
  exists all' events,
    transfer_match mktime_utc 24
      [deposit_10h; buy_1_for_200; withdraw_next_day] = Ok (all', events) /\
    all' `sublist_of` [deposit_10h; buy_1_for_200; withdraw_next_day] /\
    (forall x, In x [deposit_10h; buy_1_for_200; withdraw_next_day] ->
               type x = trade \/ type x = fee -> In x all').
Proof.
  apply (transfer_match_keeps_trades mktime_utc 24
           [deposit_10h; buy_1_for_200; withdraw_next_day]).
  simpl. repeat split; try (intros y [<-|[<-|[]]]); try (intros y [<-|[]]);
    try (intros y []); vm_compute; discriminate.
Defined.

(** ** The price oracle: blank lines and the second layout *)

Lemma lstrip_spaces l :
  Forall (fun c => Str.is_space c = true) l -> Str.lstrip l = [].
Proof. induction 1 as [|c l Hc _ IH]; simpl; [done|]. by rewrite Hc. Qed.

Lemma strip_spaces l :
  Forall (fun c => Str.is_space c = true) l -> Str.strip l = [].
Proof. intros H. unfold Str.strip. by rewrite (lstrip_spaces l H). Qed.

Lemma fmv_line_blank fr line :
  blank_line line -> raises (fmv_line fr line).
Proof.
  intros [Hne Hsp]. unfold fmv_line.
  destruct (Str.chars line) as [|c l] eqn:El.
  { destruct line; [done|discriminate]. }
  rewrite (strip_spaces _ Hsp).
  apply Forall_cons in Hsp as [Hc _].
  destruct (fr_format fr) as [[]|]; simpl; try done.
  assert (String.eqb line bitcoinaverage_header = false) as ->.
  { apply String.eqb_neq. intros ->. injection El as <- _. done. }
  unfold Str.match_blockchain. cbn [fold_left]. simpl.
  replace (Str.is_digit c) with false; [done|].
  revert Hc. unfold Str.is_space, Str.is_digit.
  generalize (nat_of_ascii c). intros n Hn.
  symmetry. apply andb_false_iff.
  destruct (Nat.leb_spec 48 n); [|by left]. right.
  apply orb_true_iff in Hn as [Hn|[Hn1 Hn2]%andb_true_iff].
  - apply Nat.eqb_eq in Hn. lia.
  - apply Nat.leb_le in Hn2. lia.
Qed.

Lemma fmv_lines_blank fr feed line :
  In line feed -> blank_line line -> raises (fmv_lines fr feed).
Proof.
  intros Hin Hb. revert fr.
  induction feed as [|l feed IH]; intros fr; simpl; [done|].
  destruct Hin as [->|Hin].
  - pose proof (fmv_line_blank fr line Hb) as H.
    by destruct (fmv_line fr line).
  - destruct (fmv_line fr l); simpl; [by apply IH|done].
Qed.

(** X15: a price feed with a blank line (the empty line of a file, or a
    line of whitespace) cannot be loaded: the first query raises, in either
    layout and wherever the line is. *)
Theorem fmv_blank_line_is_fatal (feed : list string) (line : string)
    (timestamp : struct_time) :
  In line feed -> blank_line line -> raises (fmv feed ∅ timestamp).
Proof.
  intros Hin Hb. unfold fmv. simpl.
  pose proof (fmv_lines_blank (mkFmvFrame None None ∅) feed line Hin Hb) as H.
  by destruct (fmv_lines _ feed).
Qed.

Lemma fmv_blank_line_is_fatal_witness :
  raises (fmv [blockchain_line row_27; newline] ∅ (day 27)).
Proof.
  apply (fmv_blank_line_is_fatal [blockchain_line row_27; newline] newline
           (day 27)).
  - simpl. auto.
  - split; [discriminate|]. repeat constructor.
Defined.

Definition two_digits (l : list ascii) : bool :=
  match l with
  | [a; b] => Str.is_digit a && Str.is_digit b
  | _ => false
  end.

Definition four_digits (l : list ascii) : bool :=
  match l with
  | [a; b; c; d] =>
      Str.is_digit a && Str.is_digit b && Str.is_digit c && Str.is_digit d
  | _ => false
  end.

Lemma pad2_two_digits n :
  (0 <= n <= 99)%Z -> two_digits (Str.chars (pad2 n)) = true.
Proof.
  intros Hn.
  assert (forallb (fun k => two_digits (Str.chars (pad2 (Z.of_nat k))))
            (seq 0 100) = true) as H by (vm_compute; reflexivity).
  rewrite forallb_forall in H. specialize (H (Z.to_nat n)).
  rewrite Z2Nat.id in H by lia. apply H, in_seq. lia.
Qed.

Lemma year_four_digits n :
  (1000 <= n <= 9999)%Z -> four_digits (Str.chars (string_of_Z n)) = true.
Proof.
  intros Hn.
  assert (forallb (fun k => four_digits (Str.chars (string_of_Z (Z.of_nat k))))
            (seq 1000 (Z.to_nat 9000)) = true) as H by (vm_compute; reflexivity).
  rewrite forallb_forall in H. specialize (H (Z.to_nat n)).
  rewrite Z2Nat.id in H by lia. apply H, in_seq. lia.
Qed.

Lemma chars_append a b :
  Str.chars (String.append a b) = Str.chars a ++ Str.chars b.
Proof. induction a as [|c a IH]; simpl; [done|]. by rewrite <- IH. Qed.

Lemma chars_of_chars l : Str.chars (Str.of_chars l) = l.
Proof. apply list_ascii_of_string_of_list_ascii. Qed.

Lemma of_chars_chars s : Str.of_chars (Str.chars s) = s.
Proof. apply string_of_list_ascii_of_string. Qed.

Lemma digit_not_space c : Str.is_digit c = true -> Str.is_space c = false.
Proof.
  unfold Str.is_digit, Str.is_space. generalize (nat_of_ascii c). intros n.
  intros [H1 H2]%andb_true_iff. apply Nat.leb_le in H1, H2.
  apply orb_false_iff. split.
  - apply Nat.eqb_neq. lia.
  - apply andb_false_iff. right. apply Nat.leb_gt. lia.
Qed.

Lemma digit_neq c a :
  Str.is_digit a = true -> Str.is_digit c = false -> Ascii.eqb c a = false.
Proof. intros Ha Hc. apply Ascii.eqb_neq. intros ->. congruence. Qed.

Lemma digit_neq_r a c :
  Str.is_digit a = true -> Str.is_digit c = false -> Ascii.eqb a c = false.
Proof. intros Ha Hc. apply Ascii.eqb_neq. intros ->. congruence. Qed.

Lemma split_by_nosep is_sep l :
  Forall (fun c => is_sep c = false) l -> Str.split_by is_sep l = [l].
Proof. induction 1 as [|c l Hc _ IH]; simpl; [done|]. by rewrite Hc, IH. Qed.

Lemma split_by_app is_sep a c b :
  Forall (fun c => is_sep c = false) a -> is_sep c = true ->
  Str.split_by is_sep (a ++ c :: b) = a :: Str.split_by is_sep b.
Proof.
  intros Ha Hc. induction Ha as [|x a Hx _ IH]; simpl.
  - by rewrite Hc.
  - by rewrite Hx, IH.
Qed.

Lemma span_digits_app ip rest :
  all_digits ip ->
  match rest with [] => True | c :: _ => Str.is_digit c = false end ->
  Str.span_digits (ip ++ rest) = (ip, rest).
Proof.
  intros Hip Hrest. induction Hip as [|x ip Hx _ IH]; simpl.
  - destruct rest as [|c rest]; [done|]. simpl. by rewrite Hrest.
  - by rewrite Hx, IH.
Qed.

Lemma lstrip_nonspace c l :
  Str.is_space c = false -> Str.lstrip (c :: l) = c :: l.
Proof. intros H. simpl. by rewrite H. Qed.

(** A line that begins and ends with characters that are not whitespace
    loses exactly its newline. *)
Lemma strip_line c body e :
  Str.is_space c = false -> Str.is_space e = false ->
  Str.strip (c :: body ++ [e] ++ ["010"%char]) = c :: body ++ [e].
Proof.
  intros Hc He. unfold Str.strip. rewrite lstrip_nonspace by done.
  change (c :: body ++ [e] ++ ["010"%char])
    with ((c :: body) ++ [e] ++ ["010"%char]).
  rewrite !rev_app_distr. simpl. rewrite He.
  change (e :: rev body ++ [c]) with ([e] ++ rev body ++ [c]).
  rewrite !rev_app_distr, rev_involutive. simpl. done.
Qed.

(** The price ends with a digit or with its point. *)
Lemma price_last c ip fp :
  all_digits fp ->
  exists body e, c :: ip ++ "."%char :: fp = c :: body ++ [e] /\
                 Str.is_space e = false.
Proof.
  intros Hfp. destruct fp as [|x fp _] using rev_ind.
  - by exists ip, "."%char.
  - exists (ip ++ "."%char :: fp), x.
    assert (Str.is_digit x = true) as Hx.
    { unfold all_digits in Hfp. rewrite Forall_forall in Hfp. apply Hfp.
      apply elem_of_app. right. constructor. }
    split; [rewrite <- app_assoc; reflexivity|]. by apply digit_not_space.
Qed.

Lemma strip_id c body e :
  Str.is_space c = false -> Str.is_space e = false ->
  Str.strip (c :: body ++ [e]) = c :: body ++ [e].
Proof.
  intros Hc He. unfold Str.strip. rewrite lstrip_nonspace by done.
  change (c :: body ++ [e]) with ((c :: body) ++ [e]).
  rewrite rev_app_distr. simpl. rewrite He.
  change (e :: rev body ++ [c]) with ([e] ++ rev body ++ [c]).
  rewrite !rev_app_distr, rev_involutive. simpl. done.
Qed.

(** [decimal.Decimal] of digits, a point and digits. *)
Lemma parse_decimal_numeral ip fp :
  ip <> [] -> all_digits ip -> all_digits fp ->
  Str.parse_decimal (ip ++ "."%char :: fp)
  = Ok (Qred (inject_Z (Str.nat_of_digits (ip ++ fp))
              * Dec.pow10 (- Z.of_nat (length fp)))).
Proof.
  intros Hne Hip Hfp. destruct ip as [|c ip]; [done|]. clear Hne.
  pose proof Hip as Hip'. apply Forall_cons in Hip' as [Hc _].
  destruct (price_last c ip fp Hfp) as (body & e & E & He).
  unfold Str.parse_decimal.
  change ((c :: ip) ++ "."%char :: fp) with (c :: ip ++ "."%char :: fp).
  rewrite E, strip_id, <- E by (done || by apply digit_not_space).
  rewrite !(digit_neq_r c) by done.
  change (c :: ip ++ "."%char :: fp) with ((c :: ip) ++ "."%char :: fp).
  rewrite span_digits_app by done. simpl Str.lit.
  rewrite <- (app_nil_r fp) at 1. rewrite span_digits_app by done.
  simpl. by rewrite Z.add_0_l || destruct (Str.nat_of_digits _).
Qed.

Lemma digits_nosep (sep : ascii) l :
  Str.is_digit sep = false -> all_digits l ->
  Forall (fun c => Ascii.eqb sep c = false) l.
Proof.
  intros Hs Hl. eapply Forall_impl; [exact Hl|].
  intros c Hc. by apply digit_neq.
Qed.

Lemma price_nosep (sep : ascii) ip fp :
  Str.is_digit sep = false -> Ascii.eqb sep "." = false ->
  all_digits ip -> all_digits fp ->
  Forall (fun c => Ascii.eqb sep c = false) (ip ++ "."%char :: fp).
Proof.
  intros Hs Hp Hip Hfp. apply Forall_app. split; [by apply digits_nosep|].
  constructor; [done|by apply digits_nosep].
Qed.

Ltac nosep :=
  repeat first [ apply Forall_nil_2
               | apply Forall_cons_2;
                   [first [reflexivity | by apply digit_neq
                          | by apply digit_not_space]|] ].

(** Name the digits of a two-digit and of a four-digit field. *)
Ltac two_digit_chars n a b Ha Hb E :=
  let H := fresh in
  assert (two_digits (Str.chars (pad2 n)) = true) as H
    by (apply pad2_two_digits; lia);
  destruct (Str.chars (pad2 n)) as [|a [|b [|? ?]]] eqn:E; try discriminate H;
  apply andb_true_iff in H as [Ha Hb].

Lemma fmv_line_blockchain fr r :
  fr_format fr = None \/ fr_format fr = Some blockchain ->
  well_formed_row r ->
  fmv_line fr (blockchain_line r)
  = Ok (mkFmvFrame (Some blockchain)
          (Some (pr_int r ++ "."%char :: pr_frac r))
          (<[strftime_Ymd (pr_time r) := pr_value r]> (fr_prices fr))).
Proof.
  intros Hfmt ((Hy & Hm & Hd & Hh & Hmi & Hs) & Hne & Hip & Hfp).
  unfold fmv_line, blockchain_line, strftime_Ymd, pr_value.
  rewrite chars_of_chars.
  destruct r as [t ip fp]. simpl in *.
  two_digit_chars (tm_mday t) d1 d2 Hd1 Hd2 Ed.
  two_digit_chars (tm_mon t) m1 m2 Hm1 Hm2 Em.
  two_digit_chars (tm_hour t) h1 h2 Hh1 Hh2 Eh.
  two_digit_chars (tm_min t) n1 n2 Hn1 Hn2 En.
  two_digit_chars (tm_sec t) s1 s2 Hs1 Hs2 Es.
  pose proof (year_four_digits (tm_year t) Hy) as Hy4.
  destruct (Str.chars (string_of_Z (tm_year t)))
    as [|y1 [|y2 [|y3 [|y4 [|? ?]]]]] eqn:Ey; try discriminate Hy4.
  apply andb_true_iff in Hy4 as [[[Hy1 Hy2]%andb_true_iff Hy3]%andb_true_iff Hy4].
  destruct ip as [|c ip]; [done|]. clear Hne.
  pose proof Hip as Hip'. apply Forall_cons in Hip' as [Hc Hip'].
  set (date := [d1; d2; "/"; m1; m2; "/"; y1; y2; y3; y4]%char).
  set (time := [h1; h2; ":"; n1; n2; ":"; s1; s2]%char).
  set (price := (c :: ip) ++ "."%char :: fp).
  assert ((c :: ip) ++ "."%char :: fp ++ ["010"%char]
          = price ++ ["010"%char]) as Hprice
    by (subst price; rewrite <- app_assoc; reflexivity).
  change ([d1; d2] ++ _) with (date ++ " "%char :: time ++ ","%char ::
                               (c :: ip) ++ "."%char :: fp ++
                               ["010"%char]).
  rewrite Hprice. clear Hprice.
  set (line := date ++ " "%char :: time ++ ","%char ::
               price ++ ["010"%char]).
  (* the line is not the header of the first layout *)
  assert (String.eqb (Str.of_chars line) bitcoinaverage_header = false) as Hhd.
  { subst line date. simpl. by rewrite (digit_neq_r d1). }
  (* it matches the pattern of the second layout *)
  assert (Str.match_blockchain line = true) as Hre.
  { subst line date time price. unfold Str.match_blockchain.
    cbn [fold_left app].
    repeat (simpl; rewrite ?Hd1, ?Hd2, ?Hm1, ?Hm2, ?Hy1, ?Hy2, ?Hy3, ?Hy4,
              ?Hh1, ?Hh2, ?Hn1, ?Hn2, ?Hs1, ?Hs2).
    rewrite Hc, <- app_assoc.
    change (("."%char :: fp) ++ ["010"%char])
      with ("."%char :: fp ++ ["010"%char]).
    by rewrite span_digits_app. }
  (* stripped, it loses its newline *)
  assert (Str.strip line
          = date ++ " "%char :: time ++ ","%char :: price) as Hstrip.
  { subst line price.
    destruct (price_last c ip fp Hfp) as (body & e & E & He).
    change ((c :: ip) ++ "."%char :: fp) with (c :: ip ++ "."%char :: fp).
    rewrite E.
    subst date time. simpl. rewrite <- app_assoc.
    apply (strip_line d1
             ([d2; "/"; m1; m2; "/"; y1; y2; y3; y4; " "; h1; h2; ":";
               n1; n2; ":"; s1; s2; ","; c]%char ++ body) e);
      [by apply digit_not_space|done]. }
  rewrite Hstrip.
  (* the columns *)
  assert (Str.split "," (date ++ " "%char :: time ++ ","%char :: price)
          = [date ++ " "%char :: time; price]) as Hcols.
  { unfold Str.split.
    change (date ++ " "%char :: time ++ ","%char :: price)
      with ((date ++ " "%char :: time) ++ ","%char :: price).
    rewrite split_by_app; [|subst date time; cbn [app]; nosep|done].
    rewrite split_by_nosep; [done|]. by apply price_nosep. }
  rewrite Hcols.
  assert (Str.split_ws (date ++ " "%char :: time) = [date; time]) as Hws.
  { unfold Str.split_ws. rewrite split_by_app; [|subst date; nosep|done].
    rewrite split_by_nosep by (subst time; nosep).
    rewrite filter_cons_True by (by subst date).
    by rewrite filter_cons_True by (by subst time). }
  assert (Str.of_chars
            (Str.join (Str.chars "-") (rev (Str.split "/" date)))
          = String.append (string_of_Z (tm_year t))
              (String.append "-"
                 (String.append (pad2 (tm_mon t))
                    (String.append "-" (pad2 (tm_mday t)))))) as Hkey.
  { rewrite <- (of_chars_chars (String.append (string_of_Z (tm_year t)) _)).
    rewrite !chars_append, Ey, Em, Ed. f_equal.
    subst date. unfold Str.split.
    change [d1; d2; "/"; m1; m2; "/"; y1; y2; y3; y4]%char
      with ([d1; d2] ++ "/"%char :: [m1; m2] ++ "/"%char :: [y1; y2; y3; y4]).
    rewrite !split_by_app, split_by_nosep by (done || nosep).
    reflexivity. }
  assert (Str.parse_decimal price
          = Ok (Qred (inject_Z (Str.nat_of_digits ((c :: ip) ++ fp))
                      * Dec.pow10 (- Z.of_nat (length fp))))) as Hval
    by (by apply parse_decimal_numeral).
  assert (exists x l, line = x :: l) as (x & l & Hline)
    by (by exists d1, (tl line)).
  rewrite Hline, <- Hline.
  assert ((let* pat :=
             match fr_format fr with
             | Some f => Ok (f, false)
             | None =>
                 if String.eqb (Str.of_chars line) bitcoinaverage_header
                 then Ok (bitcoinaverage, true)
                 else if Str.match_blockchain line then Ok (blockchain, false)
                 else Raise ValueError
             end in Ok pat) = Ok (blockchain, false)) as Hpat.
  { rewrite Hhd, Hre. by destruct Hfmt as [-> | ->]. }
  destruct (match fr_format fr with Some f => _ | None => _ end)
    as [pat|]; [|done].
  injection Hpat as ->.
  change (getitem [date ++ " "%char :: time; price] 0)
    with (Ok (date ++ " "%char :: time) : Result (list ascii)).
  change (getitem [date ++ " "%char :: time; price] 1)
    with (Ok price : Result (list ascii)).
  cbn [bind]. rewrite Hws.
  change (getitem [date; time] 0) with (Ok date : Result (list ascii)).
  cbn [bind]. rewrite Hval. cbn [bind].
  change (Str.chars "-") with ["-"%char] in Hkey. by rewrite Hkey.
Qed.

Lemma fmv_lines_blockchain fr rows :
  fr_format fr = None \/ fr_format fr = Some blockchain ->
  Forall well_formed_row rows ->
  exists fr',
    fmv_lines fr (map blockchain_line rows) = Ok fr' /\
    fr_prices fr' =
      fold_left (fun m r => <[strftime_Ymd (pr_time r) := pr_value r]> m)
        rows (fr_prices fr).
Proof.
  intros Hfmt Hrows. revert fr Hfmt.
  induction Hrows as [|r rows Hr _ IH]; intros fr Hfmt; simpl.
  - by exists fr.
  - rewrite fmv_line_blockchain by done. simpl.
    destruct (IH (mkFmvFrame (Some blockchain)
                    (Some (pr_int r ++ "."%char :: pr_frac r))
                    (<[strftime_Ymd (pr_time r) := pr_value r]> (fr_prices fr))))
      as (fr' & -> & Hp); [by right|].
    by exists fr'.
Qed.

Lemma fmv_blockchain_table rows ts :
  Forall well_formed_row rows ->
  fmv (map blockchain_line rows) ∅ ts
  = Ok (default 100%Q (price_table rows !! strftime_Ymd ts), price_table rows).
Proof.
  intros Hrows. unfold fmv. rewrite bool_decide_eq_true_2 by done.
  destruct (fmv_lines_blockchain (mkFmvFrame None None ∅) rows)
    as (fr' & -> & Hp); [by left|done|].
  simpl. by rewrite Hp.
Qed.

(** X16: a feed in the second layout ([dd/mm/yyyy hh:mm:ss,price] lines)
    loads at the first query: the table maps the date [yyyy-mm-dd] of each
    row to the number its price denotes, a later row of the same day
    replacing an earlier one, and the query answers with the table's price
    for its day, or 100 when the table has none. *)
Theorem fmv_blockchain_feed (rows : list PriceRow) (ts : struct_time) :
  Forall well_formed_row rows ->
  fmv (map blockchain_line rows) ∅ ts
  = Ok (default 100%Q (price_table rows !! strftime_Ymd ts), price_table rows).
Proof.
  intros Hrows. unfold fmv. rewrite bool_decide_eq_true_2 by done.
  destruct (fmv_lines_blockchain (mkFmvFrame None None ∅) rows)
    as (fr' & -> & Hp); [by left|done|].
  simpl. by rewrite Hp.
Qed.

Lemma rows_27_28_well_formed : Forall well_formed_row [row_27; row_28].
Proof.
  repeat constructor; simpl; try lia; try discriminate.
Qed.

Lemma fmv_blockchain_feed_witness :
  fmv (map blockchain_line [row_27; row_28]) ∅ (day 28)
  = Ok (default 100%Q (price_table [row_27; row_28] !! strftime_Ymd (day 28)),
        price_table [row_27; row_28]).
Proof.
  apply (fmv_blockchain_feed [row_27; row_28] (day 28)).
  exact rows_27_28_well_formed.
Defined.

Lemma pad2_inj n m :
  (0 <= n <= 99)%Z -> (0 <= m <= 99)%Z -> pad2 n = pad2 m -> n = m.
Proof.
  intros Hn Hm E.
  assert (forall k, (0 <= k <= 99)%Z ->
                    Str.nat_of_digits (Str.chars (pad2 k)) = k) as Hinv.
  { intros k Hk.
    assert (forallb (fun i => (Str.nat_of_digits
                                 (Str.chars (pad2 (Z.of_nat i)))
                               =? Z.of_nat i)%Z)
              (seq 0 100) = true) as H by (vm_compute; reflexivity).
    rewrite forallb_forall in H. specialize (H (Z.to_nat k)).
    rewrite Z2Nat.id in H by lia. apply Z.eqb_eq, H, in_seq. lia. }
  rewrite <- (Hinv n Hn), <- (Hinv m Hm). by rewrite E.
Qed.

Lemma chars_inj a b : Str.chars a = Str.chars b -> a = b.
Proof.
  intros H. by rewrite <- (of_chars_chars a), <- (of_chars_chars b), H.
Qed.

Lemma strftime_Ymd_inj a b :
  calendar_time a -> calendar_time b ->
  strftime_Ymd a = strftime_Ymd b -> same_day a b.
Proof.
  intros (Hya & Hma & Hda & _) (Hyb & Hmb & Hdb & _) E.
  apply (f_equal Str.chars) in E. unfold strftime_Ymd in E.
  rewrite !chars_append in E.
  pose proof (year_four_digits _ Hya) as Ya.
  pose proof (year_four_digits _ Hyb) as Yb.
  assert (two_digits (Str.chars (pad2 (tm_mon a))) = true) as Ma
    by (apply pad2_two_digits; lia).
  assert (two_digits (Str.chars (pad2 (tm_mon b))) = true) as Mb
    by (apply pad2_two_digits; lia).
  assert (two_digits (Str.chars (pad2 (tm_mday a))) = true) as Da
    by (apply pad2_two_digits; lia).
  assert (two_digits (Str.chars (pad2 (tm_mday b))) = true) as Db
    by (apply pad2_two_digits; lia).
  destruct (Str.chars (string_of_Z (tm_year a)))
    as [|? [|? [|? [|? [|? ?]]]]] eqn:Eya; try discriminate Ya.
  destruct (Str.chars (string_of_Z (tm_year b)))
    as [|? [|? [|? [|? [|? ?]]]]] eqn:Eyb; try discriminate Yb.
  destruct (Str.chars (pad2 (tm_mon a))) as [|? [|? [|? ?]]] eqn:Ema;
    try discriminate Ma.
  destruct (Str.chars (pad2 (tm_mon b))) as [|? [|? [|? ?]]] eqn:Emb;
    try discriminate Mb.
  destruct (Str.chars (pad2 (tm_mday a))) as [|? [|? [|? ?]]] eqn:Eda;
    try discriminate Da.
  destruct (Str.chars (pad2 (tm_mday b))) as [|? [|? [|? ?]]] eqn:Edb;
    try discriminate Db.
  simpl in E. injection E as -> -> -> -> -> -> -> ->.
  rewrite <- Eyb in Eya. rewrite <- Emb in Ema. rewrite <- Edb in Eda.
  apply chars_inj in Eya, Ema, Eda.
  split; [|split].
  - unfold string_of_Z in Eya. apply DecimalZ.to_int_inj.
    destruct (tm_year a) as [|pa|pa], (tm_year b) as [|pb|pb]; try lia.
    assert (forall p, Z.to_int (Z.pos p) <> Decimal.Pos Decimal.Nil /\
                      Z.to_int (Z.pos p) <> Decimal.Neg Decimal.Nil) as Hnn.
    { intros p. simpl. split; [|discriminate].
      intros [= H]. by apply (Unsigned.to_uint_nonnil p). }
    pose proof (NilZero.isi _ (proj1 (Hnn pa)) (proj2 (Hnn pa))) as E1.
    pose proof (NilZero.isi _ (proj1 (Hnn pb)) (proj2 (Hnn pb))) as E2.
    rewrite Eya in E1. congruence.
  - apply pad2_inj; [lia|lia|done].
  - apply pad2_inj; [lia|lia|done].
Qed.

Lemma same_day_key a b : same_day a b -> strftime_Ymd a = strftime_Ymd b.
Proof. intros (Hy & Hm & Hd). unfold strftime_Ymd. by rewrite Hy, Hm, Hd. Qed.

Lemma price_table_other rows k (m : gmap string Decimal) :
  Forall (fun r => strftime_Ymd (pr_time r) <> k) rows ->
  fold_left (fun m r => <[strftime_Ymd (pr_time r) := pr_value r]> m) rows m
    !! k = m !! k.
Proof.
  intros H. revert m. induction H as [|r rows Hr _ IH]; intros m; simpl;
    [done|].
  by rewrite IH, lookup_insert_ne.
Qed.

(** X17: the price of a day is read back: after a feed in the second
    layout in which no later row is of the same day as the row [r], a
    query for any time of that day answers with the price of [r]. *)
Theorem fmv_blockchain_round_trip (pre : list PriceRow) (r : PriceRow)
    (post : list PriceRow) (ts : struct_time) :
  Forall well_formed_row (pre ++ r :: post) ->
  Forall (fun r' => ~ same_day (pr_time r') (pr_time r)) post ->
  same_day ts (pr_time r) ->
  exists table,
    fmv (map blockchain_line (pre ++ r :: post)) ∅ ts = Ok (pr_value r, table).
Proof.
  intros Hrows Hpost Hts. rewrite fmv_blockchain_table by done.
  eexists. f_equal. f_equal. unfold price_table.
  rewrite fold_left_app. simpl.
  apply Forall_app in Hrows as [_ Hrows].
  apply Forall_cons in Hrows as [[Hr _] Hrows].
  rewrite (same_day_key _ _ Hts), price_table_other, lookup_insert_eq; [done|].
  rewrite Forall_forall in Hpost, Hrows. apply Forall_forall.
  intros r' Hr' E. apply (Hpost r' Hr').
  apply strftime_Ymd_inj; try done. by destruct (Hrows r' Hr').
Qed.

Lemma fmv_blockchain_round_trip_witness :
  exists table,
    fmv (map blockchain_line ([] ++ row_27 :: [row_28])) ∅ (at_hour 27 15)
    = Ok (pr_value row_27, table).
Proof.
  apply (fmv_blockchain_round_trip [] row_27 [row_28] (at_hour 27 15)).
  - exact rows_27_28_well_formed.
  - repeat constructor. intros [_ [_ H]]. discriminate H.
  - repeat split.
Defined.

(** X18: a day that the feed has no row for is valued at 100: after a
    feed in the second layout none of whose rows is of the day asked for,
    the query answers 100. *)
Theorem fmv_day_without_row (rows : list PriceRow) (ts : struct_time) :
  Forall well_formed_row rows ->
  calendar_time ts ->
  Forall (fun r => ~ same_day (pr_time r) ts) rows ->
  exists table, fmv (map blockchain_line rows) ∅ ts = Ok (100%Q, table).
Proof.
  intros Hrows Hts Hnone. rewrite fmv_blockchain_table by done.
  eexists. f_equal. f_equal. unfold price_table.
  rewrite price_table_other; [done|].
  rewrite Forall_forall in Hnone, Hrows. apply Forall_forall.
  intros r Hr E. apply (Hnone r Hr).
  apply strftime_Ymd_inj; try done. by destruct (Hrows r Hr).
Qed.

Lemma fmv_day_without_row_witness :
  exists table,
    fmv (map blockchain_line [row_27; row_28]) ∅ (day 29) = Ok (100%Q, table).
Proof.
  apply (fmv_day_without_row [row_27; row_28] (day 29)).
  - exact rows_27_28_well_formed.
  - unfold calendar_time. simpl. lia.
  - repeat constructor; intros [_ [_ H]]; discriminate H.
Defined.

(** ** The MtGox parser *)

(** A constructor call that passes a price does not divide. *)
Lemma Transaction_init_priced _unique ts ty b u p fu fb i ident :
  Transaction_init _unique ts ty b u (Some p) fu fb i (Some ident)
  = Ok (mkTransaction ts ty b u (Some p) fu fb i ident None, _unique).
Proof. unfold Transaction_init. destruct b, u, fu, fb; reflexivity. Qed.

(** What [parse_row] returns once [is_btc] is set: a transaction dated and
    annotated as the row, or ValueError. *)
Lemma MtGoxParser_parse_row_cases self _unique row :
  is_Some (is_btc self) ->
  (exists t u', MtGoxParser_parse_row self _unique row = Ok (t, u') /\
                timestamp t = row_timestamp row /\
                info t = Some (row_info row) /\ (_unique <= u')%Z) \/
  MtGoxParser_parse_row self _unique row = Raise ValueError.
Proof.
  intros [isb Hb]. unfold MtGoxParser_parse_row. rewrite Hb.
  destruct (Str.search_tid _) as [m|]; simpl;
    repeat (match goal with
            | |- context [if String.eqb ?a ?b then _ else _] =>
                destruct (String.eqb a b)
            end);
    try destruct isb; rewrite ?Transaction_init_priced;
    try (by right); left; eexists _, _; (split; [done|]); simpl;
    repeat split; lia.
Qed.




Lemma MtGoxParser_parse_row_usd_transfer self _unique row :
  is_btc self = Some false ->
  row_type row = "deposit" \/ row_type row = "withdraw" ->
  MtGoxParser_parse_row self _unique row = Raise ValueError.
Proof.
  intros Hb Hty. unfold MtGoxParser_parse_row. rewrite Hb.
  destruct (Str.search_tid _) as [m|]; simpl;
    by destruct Hty as [-> | ->].
Qed.

Lemma MtGoxParser_parse_rows_usd_transfer self _unique rows row :
  is_btc self = Some false -> In row rows ->
  row_type row = "deposit" \/ row_type row = "withdraw" ->
  MtGoxParser_parse_rows self _unique rows = Raise ValueError.
Proof.
  intros Hb Hin Hty. revert _unique.
  induction rows as [|r rows IH]; intros _unique; simpl; [done|].
  destruct (MtGoxParser_parse_row_cases self _unique r)
    as [(t & u1 & E & _)|E]; [by eexists| |by rewrite E].
  destruct Hin as [->|Hin].
  - by rewrite MtGoxParser_parse_row_usd_transfer in E.
  - rewrite E. simpl. by rewrite IH.
Qed.

(** X20: a MtGox file that is not an asset ledger (no BTC in the
    upper-cased base name) and has a deposit or withdraw row is never
    parsed: [parse_file] raises ValueError, whatever its other rows are
    (rows whose date and value convert, as the rows of the model are). *)
Theorem MtGoxParser_usd_file_rejects_transfers (self : MtGoxState)
    (_unique : Z) (filename : string) (rows : list MtGoxRow) (row : MtGoxRow) :
  Str.contains (Str.chars "BTC")
    (Str.upper (Str.basename (Str.chars filename))) = false ->
  In row rows ->
  row_type row = "deposit" \/ row_type row = "withdraw" ->
  MtGoxParser_parse_file self _unique filename rows = Raise ValueError.
Proof.
  intros Hn Hin Hty. unfold MtGoxParser_parse_file. rewrite Hn.
  destruct (Str.contains (Str.chars "USD") _); [|done]. simpl.
  by rewrite (MtGoxParser_parse_rows_usd_transfer _ _ rows row).
Qed.

Lemma MtGoxParser_usd_file_rejects_transfers_witness :
  MtGoxParser_parse_file MtGoxParser_new 0 "history/mtgox_usd.csv"
    (mtgox_btc_rows "history/mtgox_usd.csv") = Raise ValueError.
Proof.
  apply (MtGoxParser_usd_file_rejects_transfers MtGoxParser_new 0
           "history/mtgox_usd.csv" (mtgox_btc_rows "history/mtgox_usd.csv")
           (mkMtGoxRow (day 1) "deposit" "" 1)).
  - reflexivity.
  - simpl. auto.
  - simpl. auto.
Defined.

(** Each member's truthy attributes overwrite those of the merged
    transaction. *)
Lemma absorb_fields merged t :
  let pick (get : Transaction -> option Decimal) :=
    if truthy_opt (get t) then get t else get merged in
  absorb merged t =
  mkTransaction (timestamp merged) (type merged) (pick btc) (pick usd)
    (pick price) (pick fee_usd) (pick fee_btc) (info merged) (id merged)
    (parser merged).
Proof.
  unfold absorb. destruct merged as [ts ty mb mu mp mfu mfb mi mid mpar].
  destruct (truthy_opt (price t)), (truthy_opt (fee_btc t)),
    (truthy_opt (fee_usd t)), (truthy_opt (usd t)), (truthy_opt (btc t));
    reflexivity.
Qed.

Lemma last_truthy_cons get start t l :
  last_truthy get start (t :: l)
  = last_truthy get (if truthy_opt (get t) then get t else start) l.
Proof.
  unfold last_truthy. simpl.
  destruct (truthy_opt (get t)); [|done]. simpl.
  destruct (List.filter truthy_opt (map get l)) as [|v vs] eqn:E; [done|].
  rewrite last_cons_cons.
  destruct (last (v :: vs)) eqn:El; [done|]. by apply last_None in El.
Qed.

(** X21: the loop of [MtGoxParser.merge] over the members of a group
    gives each of the attributes btc, usd, price, fee_usd and fee_btc the
    value it has in the last member where it is present and not zero (the
    value it started with when there is none) and leaves the time stamp,
    the type, the info, the id and the parser as they were. *)
Theorem merge_loop_last_truthy (merged : Transaction)
    (transactions : list Transaction) :
  fold_left absorb transactions merged =
  mkTransaction (timestamp merged) (type merged)
    (last_truthy btc (btc merged) transactions)
    (last_truthy usd (usd merged) transactions)
    (last_truthy price (price merged) transactions)
    (last_truthy fee_usd (fee_usd merged) transactions)
    (last_truthy fee_btc (fee_btc merged) transactions)
    (info merged) (id merged) (parser merged).
Proof.
  revert merged. induction transactions as [|t l IH]; intros merged.
  - by destruct merged.
  - cbn [fold_left]. rewrite IH, absorb_fields, !last_truthy_cons. done.
Qed.

Lemma first_type_trade (t0 : Transaction) (l : list Transaction) :
  type t0 <> fee ->
  getitem
    (filter (fun ty => TxType_eqb ty fee = false) (map type (t0 :: l))) 0
  = Ok (type t0).
Proof.
  intros H. simpl map. rewrite filter_cons_True; [done|].
  by destruct (type t0).
Qed.

(** X22: the two halves of a MtGox trade, the row of the asset ledger
    with the quantity and the row of the fiat ledger with the amount, both
    without price or fees, merge into one trade with that quantity, that
    amount and the price [usd / btc]; time stamp, id and parser are those
    of the first row. *)
Theorem MtGoxParser_merge_trade_halves (_unique : Z)
    (t_btc t_usd : Transaction) (b u : Decimal) :
  type t_btc = trade -> type t_usd = trade ->
  btc t_btc = Some b -> Dec.truthy b = true ->
  usd t_usd = Some u -> Dec.truthy u = true ->
  truthy_opt (usd t_btc) = false -> truthy_opt (btc t_usd) = false ->
  Forall (fun t => truthy_opt (price t) = false /\
                   truthy_opt (fee_usd t) = false /\
                   truthy_opt (fee_btc t) = false) [t_btc; t_usd] ->
  exists merged,
    MtGoxParser_merge _unique [t_btc; t_usd] = Ok (merged, _unique) /\
    type merged = trade /\
    timestamp merged = timestamp t_btc /\
    id merged = id t_btc /\
    parser merged = parser t_btc /\
    btc merged = Some b /\
    usd merged = Some u /\
    price merged = Some (Dec.ctx_round (u / b)) /\
    fee_usd merged = Some 0%Q /\
    fee_btc merged = Some 0%Q.
Proof.
  intros Hty1 Hty2 Hb Hbt Hu Hut Hu1 Hb2 Hall.
  apply Forall_cons in Hall as [(Hp1 & Hfu1 & Hfb1) Hall].
  apply Forall_cons in Hall as [(Hp2 & Hfu2 & Hfb2) _].
  unfold MtGoxParser_merge.
  rewrite first_type_trade by (rewrite Hty1; discriminate).
  cbn [bind]. unfold Transaction_init. cbn [bind decimal_or_none].
  cbn [fold_left]. rewrite !absorb_fields. cbn zeta. simpl.
  rewrite Hp1, Hfu1, Hfb1, Hu1, Hp2, Hfu2, Hfb2, Hb2, Hb, Hu. simpl.
  rewrite Hbt, Hut. simpl.
  unfold Dec.div. unfold Dec.truthy in Hbt.
  apply negb_true_iff in Hbt. rewrite Hbt.
  eexists. split; [rewrite Hty1; simpl; reflexivity|].
  simpl. done.
Qed.

Lemma MtGoxParser_merge_trade_halves_witness :
  exists merged,
    MtGoxParser_merge 7 [mtgox_half_btc; mtgox_half_usd] = Ok (merged, 7%Z) /\
    type merged = trade /\
    timestamp merged = timestamp mtgox_half_btc /\
    id merged = id mtgox_half_btc /\
    parser merged = parser mtgox_half_btc /\
    btc merged = Some 2%Q /\
    usd merged = Some (-200)%Q /\
    price merged = Some (Dec.ctx_round (-200 / 2)) /\
    fee_usd merged = Some 0%Q /\
    fee_btc merged = Some 0%Q.
Proof.
  apply (MtGoxParser_merge_trade_halves 7 mtgox_half_btc mtgox_half_usd
           2 (-200)).
  - reflexivity.
  - reflexivity.
  - reflexivity.
  - reflexivity.
  - reflexivity.
  - reflexivity.
  - reflexivity.
  - reflexivity.
  - repeat constructor.
Defined.

(** A member whose attribute is not truthy leaves the attribute of the
    merged transaction alone. *)
Lemma absorb_usd merged t :
  truthy_opt (usd t) = false -> usd (absorb merged t) = usd merged.
Proof.
  intros H. unfold absorb. rewrite H.
  destruct (truthy_opt (price t)), (truthy_opt (fee_btc t)),
    (truthy_opt (fee_usd t)), (truthy_opt (btc t)); reflexivity.
Qed.

Lemma absorb_price merged t :
  truthy_opt (price t) = false -> price (absorb merged t) = price merged.
Proof.
  intros H. unfold absorb. rewrite H.
  destruct (truthy_opt (fee_btc t)), (truthy_opt (usd t)),
    (truthy_opt (fee_usd t)), (truthy_opt (btc t)); reflexivity.
Qed.

Lemma fold_absorb_usd_price merged transactions :
  Forall (fun t => truthy_opt (usd t) = false /\
                   truthy_opt (price t) = false) transactions ->
  usd (fold_left absorb transactions merged) = usd merged /\
  price (fold_left absorb transactions merged) = price merged.
Proof.
  intros H. revert merged.
  induction H as [|t l [Hu Hp] _ IH]; intros merged; simpl; [done|].
  destruct (IH (absorb merged t)) as [-> ->].
  by rewrite absorb_usd, absorb_price.
Qed.

(** X23: a group of two or more MtGox rows that begins with a trade and
    in which no row carries a fiat amount or a price (the rows of a trade
    whose fiat ledger was not given) does not merge: [merge] ends with an
    exception (the division [merged.usd / merged.btc] is applied to
    [None], and the handler around it does not recover). *)
Theorem MtGoxParser_merge_without_usd (_unique : Z)
    (t0 t1 : Transaction) (rest : list Transaction) :
  type t0 = trade ->
  Forall (fun t => truthy_opt (usd t) = false /\
                   truthy_opt (price t) = false) (t0 :: t1 :: rest) ->
  raises (MtGoxParser_merge _unique (t0 :: t1 :: rest)).
Proof.
  intros Hty Hall. unfold MtGoxParser_merge.
  rewrite first_type_trade by (rewrite Hty; discriminate).
  cbn [bind]. unfold Transaction_init. cbn [bind decimal_or_none].
  match goal with
  | |- context [fold_left absorb _ ?m] =>
      destruct (fold_absorb_usd_price m _ Hall) as [-> ->]
  end.
  simpl. by rewrite Hty.
Qed.

Lemma MtGoxParser_merge_without_usd_witness :
  raises (MtGoxParser_merge 7 (mtgox_half_btc :: mtgox_fee_row :: [])).
Proof.
  apply (MtGoxParser_merge_without_usd 7 mtgox_half_btc mtgox_fee_row []).
  - reflexivity.
  - repeat constructor.
Defined.

(** ** [CsvParser] and [BitstampParser] *)

Lemma CsvParser_parse_loop_false parse_row _unique rows :
  CsvParser_parse_loop parse_row false _unique rows
  = parse_each parse_row _unique
      (List.filter (fun row => negb (is_empty_row row)) rows).
Proof.
  revert _unique. induction rows as [|row rows IH]; intros _unique; simpl;
    [done|].
  rewrite orb_false_r. destruct (is_empty_row row); simpl; [apply IH|].
  destruct (parse_row _unique row) as [[t u]|]; [|done]. simpl.
  rewrite IH. destruct (parse_each _ _ _) as [[ts u']|]; [|done]. simpl.
  by destruct t.
Qed.

Lemma CsvParser_first_row_skipped parse_row _unique rows :
  CsvParser_parse_file parse_row _unique rows
  = parse_each parse_row _unique
      (List.filter (fun row => negb (is_empty_row row)) (tl rows)).
Proof.
  unfold CsvParser_parse_file. destruct rows as [|row rows]; [done|].
  cbn [CsvParser_parse_loop tl]. rewrite orb_true_r.
  apply CsvParser_parse_loop_false.
Qed.

(** X24: [CsvParser.parse_file] hands to [parse_row], in order, exactly
    the rows after the first that are not empty: the first row is skipped
    whether it is the header or not, and an empty first row does not save
    the header from being parsed as data. *)
Theorem CsvParser_parse_file_rows
    (parse_row : Z -> list string -> Result (option Transaction * Z))
    (_unique : Z) (rows : list (list string)) :
  CsvParser_parse_file parse_row _unique rows
  = parse_each parse_row _unique
      (List.filter (fun row => negb (is_empty_row row)) (tl rows)).
Proof.
  apply CsvParser_first_row_skipped.
Qed.

Section BitstampProps.

Variable strptime : string -> option struct_time.

Lemma Transaction_init_fresh _unique ts ty b u p fu fb i :
  Transaction_init _unique ts ty b u (Some p) fu fb i None
  = Ok (mkTransaction ts ty b u (Some p) fu fb i (fst (unique _unique)) None,
        snd (unique _unique)).
Proof. unfold Transaction_init. destruct b, u, fu, fb; reflexivity. Qed.

Lemma BitstampParser_parse_row_Ok _unique row t u' :
  BitstampParser_parse_row strptime _unique row = Ok (t, u') ->
  exists tx, t = Some tx /\ id tx = fst (unique _unique) /\
             u' = snd (unique _unique).
Proof.
  unfold BitstampParser_parse_row.
  destruct row as [|ty [|tm [|b [|u [|p [|f [|? ?]]]]]]]; try done.
  destruct (strptime tm); [|done]. simpl.
  repeat (match goal with
          | |- context [if String.eqb ?a ?b then _ else _] =>
              destruct (String.eqb a b)
          end);
    repeat (match goal with
            | |- context [Str.parse_decimal ?x] =>
                destruct (Str.parse_decimal x); [|done]; simpl
            end);
    rewrite ?Transaction_init_fresh; simpl; try done;
    intros [= <- <-]; eauto.
Qed.

Lemma parse_each_Bitstamp _unique rows ts u' :
  parse_each (BitstampParser_parse_row strptime) _unique rows = Ok (ts, u') ->
  length ts = length rows /\
  map id ts = fresh_ids _unique (length rows) /\
  u' = (_unique + Z.of_nat (length rows))%Z.
Proof.
  revert _unique ts. induction rows as [|row rows IH]; intros _unique ts; simpl.
  - intros [= <- <-]. split; [done|]. split; [done|]. lia.
  - destruct (BitstampParser_parse_row strptime _unique row) as [[t u1]|] eqn:E;
      [|done]. simpl.
    apply BitstampParser_parse_row_Ok in E as (tx & -> & Hid & ->).
    destruct (parse_each _ _ rows) as [[ts' u2]|] eqn:E'; [|done]. simpl.
    intros [= <- <-]. destruct (IH _ _ E') as (Hl & Hids & ->).
    simpl. rewrite Hl, Hid, Hids. split; [done|]. split; [done|].
    unfold unique. simpl. lia.
Qed.

Lemma fresh_ids_spec _unique n :
  fresh_ids _unique n
  = map (fun k => fst (unique (_unique + Z.of_nat k))) (seq 0 n).
Proof.
  revert _unique. induction n as [|n IH]; intros _unique; [done|].
  cbn [fresh_ids seq map]. rewrite Z.add_0_r. f_equal.
  rewrite IH, <- seq_shift, map_map. apply map_ext. intros k.
  unfold unique. simpl. do 3 f_equal. lia.
Qed.

Lemma fresh_ids_NoDup _unique n : NoDup (fresh_ids _unique n).
Proof.
  rewrite fresh_ids_spec.
  apply (NoDup_fmap_2_strong (fun k => fst (unique (_unique + Z.of_nat k))));
    [|apply NoDup_seq].
  intros k1 k2 _ _ H. apply unique_inj in H. lia.
Qed.

(** X25: when [BitstampParser.parse_file] completes, there is one
    transaction for each non-empty row after the first, the transactions
    carry the ids that [unique] hands out from the counter on, in order,
    so that no two of them have the same id, and the counter has advanced
    by their number. *)
Theorem BitstampParser_ids_are_fresh (_unique : Z)
    (rows : list (list string)) (ts : list Transaction) (u' : Z) :
  BitstampParser_parse_file strptime _unique rows = Ok (ts, u') ->
  map id ts = fresh_ids _unique (length ts) /\
  NoDup (map id ts) /\
  u' = (_unique + Z.of_nat (length ts))%Z /\
  length ts
  = length (List.filter (fun row => negb (is_empty_row row)) (tl rows)).
Proof.
  unfold BitstampParser_parse_file.
  rewrite CsvParser_first_row_skipped. intros H.
  apply parse_each_Bitstamp in H as (Hl & Hids & ->).
  rewrite Hl. split; [done|]. split; [|done].
  rewrite Hids. apply fresh_ids_NoDup.
Qed.

End BitstampProps.

Lemma BitstampParser_ids_are_fresh_witness :
  map id bitstamp_transactions
  = fresh_ids 0 (length bitstamp_transactions) /\
  NoDup (map id bitstamp_transactions) /\
  2%Z = (0 + Z.of_nat (length bitstamp_transactions))%Z /\
  length bitstamp_transactions
  = length (List.filter (fun row => negb (is_empty_row row))
              (tl bitstamp_rows)).
Proof.
  apply (BitstampParser_ids_are_fresh strptime_october 0 bitstamp_rows
           bitstamp_transactions 2).
  vm_compute. reflexivity.
Defined.

(** ** Grouping, merging and the choice of a parser in [main] *)

Lemma by_date_append_new t by_date :
  Forall (fun g => match g with
                   | t0 :: _ => same_event t0 t = false
                   | [] => True
                   end) by_date ->
  by_date_append t by_date = by_date ++ [[t]].
Proof.
  induction 1 as [|g l Hg _ IH]; simpl; [done|].
  destruct g as [|t0 g]; [by rewrite IH|]. by rewrite Hg, IH.
Qed.

Lemma by_date_single_rows all :
  single_rows all ->
  forall acc,
    (forall g, In g acc -> exists t0, g = [t0] /\
               forall y, In y all -> same_event t0 y = false) ->
    fold_left (fun d t => by_date_append t d) all acc
    = acc ++ map (fun t => [t]) all.
Proof.
  induction all as [|t all IH]; intros Hs acc Hacc; simpl.
  - by rewrite app_nil_r.
  - destruct Hs as [Ht Hs]. rewrite by_date_append_new.
    + rewrite IH; [by rewrite <- app_assoc|done|].
      intros g [Hg|[<-|[]]]%in_app_or.
      * destruct (Hacc g Hg) as (t0 & -> & H0). exists t0.
        split; [done|]. intros y Hy. apply H0. by right.
      * exists t. split; [done|]. done.
    + apply Forall_forall. intros g Hg%list_elem_of_In.
      destruct (Hacc g Hg) as (t0 & -> & H0). apply H0. by left.
Qed.

Lemma merge_groups_singletons _unique all :
  Forall (fun t => is_Some (parser t)) all ->
  merge_groups _unique (map (fun t => [t]) all) = Ok (all, _unique).
Proof.
  induction 1 as [|t all [p Hp] _ IH]; simpl; [done|].
  rewrite Hp. destruct p; simpl; by rewrite IH.
Qed.

(** X26: when every transaction has its parser and no two transactions
    have the same parser and id, grouping by (parser, id) and merging the
    groups succeeds and gives back the transactions as they were, each
    once (in the order of the groups), and [unique] is not called. *)
Theorem merge_single_rows (_unique : Z) (all : list Transaction) :
  Forall (fun t => is_Some (parser t)) all ->
  single_rows all ->
  exists merged,
    merge_groups _unique (fold_left (fun d t => by_date_append t d) all [])
    = Ok (merged, _unique) /\
    merged ≡ₚ all.
Proof.
  intros Hp Hs. exists all. split; [|done].
  rewrite (by_date_single_rows all Hs []); [|by intros g []].
  by apply merge_groups_singletons.
Qed.

Lemma merge_single_rows_witness :
  exists merged,
    merge_groups 3
      (fold_left (fun d t => by_date_append t d)
         [buy_1_for_100; buy_1_for_200] [])
    = Ok (merged, 3%Z) /\
    merged ≡ₚ [buy_1_for_100; buy_1_for_200].
Proof.
  apply (merge_single_rows 3 [buy_1_for_100; buy_1_for_200]).
  - repeat constructor; exists BitstampParser; reflexivity.
  - simpl. repeat split; try (intros y [<-|[]]); try (intros y []);
      reflexivity.
Defined.

Section MainMore.

Variable can_parse : ParserKind -> string -> bool.
Variable mtgox_rows : string -> list MtGoxRow.
Variable parse_file_other :
  ParserKind -> string -> Z -> Result (list Transaction * Z).
Variable feed : list string.
Variable mktime : struct_time -> Z.
Variable yesterday : struct_time.

Lemma load_histories_app st pre rest :
  load_histories can_parse mtgox_rows parse_file_other st (pre ++ rest) =
  let* st' := load_histories can_parse mtgox_rows parse_file_other st pre in
  load_histories can_parse mtgox_rows parse_file_other st' rest.
Proof.
  revert st. induction pre as [|f pre IH]; intros st; simpl; [done|].
  destruct (load_file _ _ _ st f); simpl; [apply IH|done].
Qed.

(** X27: a history file that no parser recognises ends the run: when the
    files before it have loaded, [main] raises RuntimeError ("No parser
    for ...") and nothing is matched, accounted or reported, whatever the
    files after it are. *)
Theorem main_unrecognised_file_is_fatal (args : Args)
    (pre : list string) (file : string) (rest : list string)
    (st : MtGoxState * Z * list Transaction) :
  histories args = pre ++ file :: rest ->
  load_histories can_parse mtgox_rows parse_file_other
    (MtGoxParser_new, 0%Z, []) pre = Ok st ->
  (forall p, can_parse p file = false) ->
  main can_parse mtgox_rows parse_file_other feed mktime yesterday args
  = mkOutput [] [] (Raise RuntimeError).
Proof.
  intros Hh Hpre Hno. unfold main, prepare.
  rewrite Hh, load_histories_app, Hpre. cbn [bind load_histories].
  unfold load_file at 1. destruct st as [[mtgox u] all].
  unfold parsers. simpl List.find. rewrite !Hno. done.
Qed.

End MainMore.

Lemma main_unrecognised_file_is_fatal_witness :
  main no_parser mtgox_btc_rows no_other_file [] mktime_utc (day 30)
    args_notes
  = mkOutput [] [] (Raise RuntimeError).
Proof.
  apply (main_unrecognised_file_is_fatal no_parser mtgox_btc_rows
           no_other_file [] mktime_utc (day 30) args_notes
           [] "notes.txt" [] (MtGoxParser_new, 0%Z, [])).
  - reflexivity.
  - reflexivity.
  - reflexivity.
Defined.
